(** * VAMPIRE: dipolar field update and OpenCL start-up

    A shallow embedding of

    - [dipole::internal::update_field]   (src/dipole/update.cpp)
    - [vopencl::initialize]              (src/opencl/initialize.cpp)

    together with the properties the specification states about them.

    The dipole code computes in C++ [double].  The embedding is written once,
    over an interface [Scalar] of the arithmetic the source uses, and is run
    at two instances: [binary64] (IEEE-754 double precision, the arithmetic
    of the program) and [exact] (the real numbers, the arithmetic in which
    the specification's formulas are written). *)

From Stdlib Require Import ZArith Reals Floats Lra String.
From stdpp Require Import base option list.

(** ** Arithmetic of the source *)

Module Arith.

(** The operations and the numeric literals that update.cpp uses on
    [double].  [zero] is what a total read [v !!! i] yields outside the
    vector; the shape conditions below keep every read inside. *)
Class Scalar := {
  num : Type;
  add : num -> num -> num;
  mul : num -> num -> num;
  div : num -> num -> num;
  opp : num -> num;
  zero : num;
  lit_1_0 : num;              (* 1.0 *)
  lit_muB : num;              (* 9.274009994e-24 *)
  lit_8_0 : num;              (* 8.0 *)
  lit_3_0 : num;              (* 3.0 *)
  lit_0_5 : num;              (* 0.5 *)
  lit_M_PI : num;             (* M_PI of <cmath> *)
  lit_scale : num;            (* 9.274009994e-01 *)
}.

#[global] Instance num_inhabited `{Scalar} : Inhabited num := populate zero.

(** IEEE-754 binary64 with round-to-nearest-even, every operation
    rounded on its own (no contraction into a fused multiply-add, no
    extended intermediate precision): the primitive floats of the kernel.
    Decimal literals are rounded to the nearest double, as a C++ compiler
    does. *)
#[warnings="-inexact-float"]
Definition binary64 : Scalar := {|
  num := float;
  add := PrimFloat.add;
  mul := PrimFloat.mul;
  div := PrimFloat.div;
  opp := PrimFloat.opp;
  zero := 0%float;
  lit_1_0 := 1.0%float;
  lit_muB := 9.274009994e-24%float;
  lit_8_0 := 8.0%float;
  lit_3_0 := 3.0%float;
  lit_0_5 := 0.5%float;
  lit_M_PI := 3.14159265358979323846%float;
  lit_scale := 9.274009994e-01%float;
|}.

(** Exact real arithmetic. *)
Definition exact : Scalar := {|
  num := R;
  add := Rplus;
  mul := Rmult;
  div := Rdiv;
  opp := Ropp;
  zero := 0%R;
  lit_1_0 := 1%R;
  lit_muB := 9.274009994e-24%R;
  lit_8_0 := 8%R;
  lit_3_0 := 3%R;
  lit_0_5 := 0.5%R;
  lit_M_PI := PI;
  lit_scale := 9.274009994e-01%R;
|}.

End Arith.

(** ** dipole::internal::update_field *)

Module Dipole.
Import Arith.

(** The three Cartesian components and the two output quantities. *)
Inductive axis := ax_x | ax_y | ax_z.
Inductive quantity := Total | Demag.

(** What the function writes to [std::cerr]. *)
Inductive colour := RED | WHITE.
Inductive event :=
| terminaltextcolor (c : colour)
| update_called (rank : Z).
  (* the line: dipole::update has been called <my_rank> *)

Section Model.
Context `{Scalar}.

(** The globals that [update_field] reads and never writes. *)
Record inputs := {
  activated : bool;                              (* dipole::activated *)
  err_check : bool;                              (* err::check *)
  my_rank : Z;                                   (* vmpi::my_rank *)
  cells_num_local_cells : Z;                     (* dipole::internal:: *)
  cells_num_cells : Z;
  cells_num_atoms_in_cell : list Z;
  cells_volume_array : list num;
  cell_id_array : list Z;                        (* cells:: *)
  mag_array_x : list num;
  mag_array_y : list num;
  mag_array_z : list num;
  rij_tensor_xx : list (list num);               (* dipole::internal:: *)
  rij_tensor_xy : list (list num);
  rij_tensor_xz : list (list num);
  rij_tensor_yy : list (list num);
  rij_tensor_yz : list (list num);
  rij_tensor_zz : list (list num);
}.

(** The globals that [update_field] writes: the two field arrays, three
    components each, and the error stream. *)
Record outputs := {
  cells_field_array_x : list num;
  cells_field_array_y : list num;
  cells_field_array_z : list num;
  cells_mu0Hd_field_array_x : list num;
  cells_mu0Hd_field_array_y : list num;
  cells_mu0Hd_field_array_z : list num;
  cerr : list event;
}.

(** [v[i]] for an [int] index: reading outside the vector is undefined
    behaviour, modelled as [None]. *)
Definition get {A} (v : list A) (i : Z) : option A :=
  if decide (0 ≤ i)%Z then v !! Z.to_nat i else None.

(** [t[l][j]] on a vector of vectors. *)
Definition get2 {A} (t : list (list A)) (l j : Z) : option A :=
  row ← get t l; get row j.

(** [v[i] = f(v[i])]: an assignment ([f] constant), [+=] or a rescaling
    of one slot; undefined outside the vector. *)
Definition upd (v : list num) (i : Z) (f : num → num) : option (list num) :=
  if decide (0 ≤ i < Z.of_nat (length v))%Z
  then Some (alter f (Z.to_nat i) v) else None.

(** A [for] loop over the indices [idx], threading the written globals;
    it stops at the first undefined step. *)
Fixpoint run_loop (body : Z → outputs → option outputs)
    (idx : list Z) (o : outputs) : option outputs :=
  match idx with
  | [] => Some o
  | k :: rest => o' ← body k o; run_loop body rest o'
  end.

(** [const double imuB = 1.0/9.274009994e-24] *)
Definition imuB : num := div lit_1_0 lit_muB.

(** [mx*a + my*b + mz*c], parsed as C++ does. *)
Definition dot3 (mx my mz a b c : num) : num :=
  add (add (mul mx a) (mul my b)) (mul mz c).

(** Body of the loop over [j] (update.cpp, lines 77-91). *)
Definition pair_step (s : inputs) (lc i j : Z) (o : outputs) : option outputs :=
  n ← get (cells_num_atoms_in_cell s) j;
  if decide (0 < n)%Z then
    mjx ← get (mag_array_x s) j;
    mjy ← get (mag_array_y s) j;
    mjz ← get (mag_array_z s) j;
    let mx := mul mjx imuB in
    let my := mul mjy imuB in
    let mz := mul mjz imuB in
    txx ← get2 (rij_tensor_xx s) lc j;
    txy ← get2 (rij_tensor_xy s) lc j;
    txz ← get2 (rij_tensor_xz s) lc j;
    tyy ← get2 (rij_tensor_yy s) lc j;
    tyz ← get2 (rij_tensor_yz s) lc j;
    tzz ← get2 (rij_tensor_zz s) lc j;
    fx ← upd (cells_field_array_x o) i (λ f, add f (dot3 mx my mz txx txy txz));
    fy ← upd (cells_field_array_y o) i (λ f, add f (dot3 mx my mz txy tyy tyz));
    fz ← upd (cells_field_array_z o) i (λ f, add f (dot3 mx my mz txz tyz tzz));
    hx ← upd (cells_mu0Hd_field_array_x o) i (λ f, add f (dot3 mx my mz txx txy txz));
    hy ← upd (cells_mu0Hd_field_array_y o) i (λ f, add f (dot3 mx my mz txy tyy tyz));
    hz ← upd (cells_mu0Hd_field_array_z o) i (λ f, add f (dot3 mx my mz txz tyz tzz));
    Some {| cells_field_array_x := fx; cells_field_array_y := fy;
            cells_field_array_z := fz;
            cells_mu0Hd_field_array_x := hx; cells_mu0Hd_field_array_y := hy;
            cells_mu0Hd_field_array_z := hz;
            cerr := cerr o |}
  else Some o.

(** Body of the loop over [lc] (update.cpp, lines 53-103). *)
Definition cell_step (s : inputs) (lc : Z) (o : outputs) : option outputs :=
  i ← get (cell_id_array s) lc;
  n ← get (cells_num_atoms_in_cell s) i;
  if decide (0 < n)%Z then
    vol ← get (cells_volume_array s) i;
    let self_demag := div (mul lit_8_0 lit_M_PI) (mul lit_3_0 vol) in
    mix ← get (mag_array_x s) i;
    miy ← get (mag_array_y s) i;
    miz ← get (mag_array_z s) i;
    let mx_i := mul mix imuB in
    let my_i := mul miy imuB in
    let mz_i := mul miz imuB in
    fx ← upd (cells_field_array_x o) i (λ _, mul self_demag mx_i);
    fy ← upd (cells_field_array_y o) i (λ _, mul self_demag my_i);
    fz ← upd (cells_field_array_z o) i (λ _, mul self_demag mz_i);
    hx ← upd (cells_mu0Hd_field_array_x o) i (λ _, mul (mul (opp lit_0_5) self_demag) mx_i);
    hy ← upd (cells_mu0Hd_field_array_y o) i (λ _, mul (mul (opp lit_0_5) self_demag) my_i);
    hz ← upd (cells_mu0Hd_field_array_z o) i (λ _, mul (mul (opp lit_0_5) self_demag) mz_i);
    o1 ← run_loop (pair_step s lc i) (seqZ 0 (cells_num_cells s))
           {| cells_field_array_x := fx; cells_field_array_y := fy;
              cells_field_array_z := fz;
              cells_mu0Hd_field_array_x := hx; cells_mu0Hd_field_array_y := hy;
              cells_mu0Hd_field_array_z := hz;
              cerr := cerr o |};
    fx' ← upd (cells_field_array_x o1) i (λ f, mul f lit_scale);
    fy' ← upd (cells_field_array_y o1) i (λ f, mul f lit_scale);
    fz' ← upd (cells_field_array_z o1) i (λ f, mul f lit_scale);
    hx' ← upd (cells_mu0Hd_field_array_x o1) i (λ f, mul f lit_scale);
    hy' ← upd (cells_mu0Hd_field_array_y o1) i (λ f, mul f lit_scale);
    hz' ← upd (cells_mu0Hd_field_array_z o1) i (λ f, mul f lit_scale);
    Some {| cells_field_array_x := fx'; cells_field_array_y := fy';
            cells_field_array_z := fz';
            cells_mu0Hd_field_array_x := hx'; cells_mu0Hd_field_array_y := hy';
            cells_mu0Hd_field_array_z := hz';
            cerr := cerr o1 |}
  else Some o.

(** The diagnostic of lines 41-45. *)
Definition report (s : inputs) (o : outputs) : outputs :=
  {| cells_field_array_x := cells_field_array_x o;
     cells_field_array_y := cells_field_array_y o;
     cells_field_array_z := cells_field_array_z o;
     cells_mu0Hd_field_array_x := cells_mu0Hd_field_array_x o;
     cells_mu0Hd_field_array_y := cells_mu0Hd_field_array_y o;
     cells_mu0Hd_field_array_z := cells_mu0Hd_field_array_z o;
     cerr := cerr o ++ [terminaltextcolor RED; update_called (my_rank s);
                        terminaltextcolor WHITE] |}.

(** [void dipole::internal::update_field()] *)
Definition update_field (s : inputs) (o : outputs) : option outputs :=
  if negb (activated s) then Some o
  else
    let o := if err_check s then report s o else o in
    run_loop (cell_step s) (seqZ 0 (cells_num_local_cells s)) o.

(** *** The specification's formulas

    The quantities of spec sections 4.1 and 4.2, written as closed
    expressions over the inputs, to be compared with what
    [update_field] leaves in the output arrays. *)

(** The output array of quantity [q], component [a]. *)
Definition arr (q : quantity) (a : axis) (o : outputs) : list num :=
  match q, a with
  | Total, ax_x => cells_field_array_x o
  | Total, ax_y => cells_field_array_y o
  | Total, ax_z => cells_field_array_z o
  | Demag, ax_x => cells_mu0Hd_field_array_x o
  | Demag, ax_y => cells_mu0Hd_field_array_y o
  | Demag, ax_z => cells_mu0Hd_field_array_z o
  end.

(** Slot [k] of every output array rewritten by [g]; nothing else changes. *)
Definition at_cell (k : nat) (g : quantity → axis → num → num) (o : outputs) : outputs :=
  {| cells_field_array_x := alter (g Total ax_x) k (cells_field_array_x o);
     cells_field_array_y := alter (g Total ax_y) k (cells_field_array_y o);
     cells_field_array_z := alter (g Total ax_z) k (cells_field_array_z o);
     cells_mu0Hd_field_array_x := alter (g Demag ax_x) k (cells_mu0Hd_field_array_x o);
     cells_mu0Hd_field_array_y := alter (g Demag ax_y) k (cells_mu0Hd_field_array_y o);
     cells_mu0Hd_field_array_z := alter (g Demag ax_z) k (cells_mu0Hd_field_array_z o);
     cerr := cerr o |}.

(** Component [a] of the moment array. *)
Definition mag (s : inputs) (a : axis) : list num :=
  match a with
  | ax_x => mag_array_x s
  | ax_y => mag_array_y s
  | ax_z => mag_array_z s
  end.

(** Total reads, for indices inside the vectors. *)
Definition cell {A} `{Inhabited A} (v : list A) (i : Z) : A := v !!! Z.to_nat i.
Definition entry (t : list (list num)) (l j : Z) : num := cell (cell t l) j.

(** Occupancy count [> 0]. *)
Definition occupied (s : inputs) (j : Z) : Prop :=
  (0 < cell (cells_num_atoms_in_cell s) j)%Z.

#[global]
Instance occupied_dec (s : inputs) (j : Z) : Decision (occupied s j).
Proof. unfold occupied. apply _. Defined.

(** [self_demag = 8 pi / (3 Volume)] *)
Definition self_demag (vol : num) : num :=
  div (mul lit_8_0 lit_M_PI) (mul lit_3_0 vol).

(** Unit Normalizer, input to internal: times the reciprocal of the Bohr
    magneton. *)
Definition normalise (m : num) : num := mul m imuB.

(** The symmetric six-coefficient contraction of T(l,j) with the
    normalised moment of cell [j], component [a] of the result. *)
Definition contraction (s : inputs) (a : axis) (l j : Z) : num :=
  let mx := normalise (cell (mag_array_x s) j) in
  let my := normalise (cell (mag_array_y s) j) in
  let mz := normalise (cell (mag_array_z s) j) in
  match a with
  | ax_x => dot3 mx my mz (entry (rij_tensor_xx s) l j) (entry (rij_tensor_xy s) l j)
              (entry (rij_tensor_xz s) l j)
  | ax_y => dot3 mx my mz (entry (rij_tensor_xy s) l j) (entry (rij_tensor_yy s) l j)
              (entry (rij_tensor_yz s) l j)
  | ax_z => dot3 mx my mz (entry (rij_tensor_xz s) l j) (entry (rij_tensor_yz s) l j)
              (entry (rij_tensor_zz s) l j)
  end.

(** The self term of cell [i]: full weight in the total field, weight
    [-0.5] in the demagnetising pseudo-field. *)
Definition self_term (s : inputs) (q : quantity) (a : axis) (i : Z) : num :=
  let sd := self_demag (cell (cells_volume_array s) i) in
  let m := normalise (cell (mag s a) i) in
  match q with
  | Total => mul sd m
  | Demag => mul (mul (opp lit_0_5) sd) m
  end.

(** The source cells: every global cell with occupancy [> 0], in index
    order. *)
Definition sources (s : inputs) : list Z :=
  filter (occupied s) (seqZ 0 (cells_num_cells s)).

(** The contractions of the cells [js] added, one after the other, onto
    [base]. *)
Definition pair_sum (s : inputs) (a : axis) (l : Z)
    (js : list Z) (base : num) : num :=
  fold_left (λ acc j, add acc (contraction s a l j)) js base.

(** Self term, plus the sum over the sources, times the output constant. *)
Definition field_value (s : inputs) (q : quantity) (a : axis) (l i : Z) : num :=
  mul (pair_sum s a l (sources s) (self_term s q a i)) lit_scale.

(** *** Shapes

    The vectors are as long as the cell counts say: what the caller owes
    for every index of the two loops to be inside its vector. *)

Definition rows_ok (nl n : nat) (t : list (list num)) : Prop :=
  (nl ≤ length t)%nat ∧ Forall (λ row, (n ≤ length row)%nat) (take nl t).

Definition inputs_ok (s : inputs) : Prop :=
  let nl := Z.to_nat (cells_num_local_cells s) in
  let n := Z.to_nat (cells_num_cells s) in
  (nl ≤ length (cell_id_array s))%nat
  ∧ Forall (λ i, 0 ≤ i < cells_num_cells s)%Z (take nl (cell_id_array s))
  ∧ (n ≤ length (cells_num_atoms_in_cell s))%nat
  ∧ (n ≤ length (cells_volume_array s))%nat
  ∧ (∀ a, n ≤ length (mag s a))%nat
  ∧ rows_ok nl n (rij_tensor_xx s) ∧ rows_ok nl n (rij_tensor_xy s)
  ∧ rows_ok nl n (rij_tensor_xz s) ∧ rows_ok nl n (rij_tensor_yy s)
  ∧ rows_ok nl n (rij_tensor_yz s) ∧ rows_ok nl n (rij_tensor_zz s).

Definition outputs_ok (s : inputs) (o : outputs) : Prop :=
  ∀ q a, (Z.to_nat (cells_num_cells s) ≤ length (arr q a o))%nat.

Definition well_formed (s : inputs) (o : outputs) : Prop :=
  inputs_ok s ∧ outputs_ok s o.

(** The Local Cell Set: the first [cells_num_local_cells] entries of
    [cell_id_array]. *)
Definition local_cells (s : inputs) : list Z :=
  take (Z.to_nat (cells_num_local_cells s)) (cell_id_array s).

(** *** The loops as functions

    What one pass of the outer body, and the whole function, do to the
    written globals when no read or write leaves its vector. *)

Definition cell_result (s : inputs) (lc : Z) (o : outputs) : outputs :=
  let i := cell (cell_id_array s) lc in
  if decide (occupied s i)
  then at_cell (Z.to_nat i) (λ q a _, field_value s q a lc i) o
  else o.

(** The written globals as the outer loop finds them. *)
Definition entered (s : inputs) (o : outputs) : outputs :=
  if err_check s then report s o else o.

(** The local indices the outer loop visits. *)
Definition all_local (s : inputs) : list Z :=
  seqZ 0 (cells_num_local_cells s).

(** *** Changing the moments *)

Definition with_moments (s : inputs) (mx my mz : list num) : inputs :=
  {| activated := activated s; err_check := err_check s; my_rank := my_rank s;
     cells_num_local_cells := cells_num_local_cells s;
     cells_num_cells := cells_num_cells s;
     cells_num_atoms_in_cell := cells_num_atoms_in_cell s;
     cells_volume_array := cells_volume_array s;
     cell_id_array := cell_id_array s;
     mag_array_x := mx; mag_array_y := my; mag_array_z := mz;
     rij_tensor_xx := rij_tensor_xx s; rij_tensor_xy := rij_tensor_xy s;
     rij_tensor_xz := rij_tensor_xz s; rij_tensor_yy := rij_tensor_yy s;
     rij_tensor_yz := rij_tensor_yz s; rij_tensor_zz := rij_tensor_zz s |}.

(** Every cell's moment vector multiplied by [k]. *)
Definition scale_moments (k : num) (s : inputs) : inputs :=
  with_moments s (mul k <$> mag_array_x s) (mul k <$> mag_array_y s)
    (mul k <$> mag_array_z s).

(** The moment arrays of [s'] are as long as those of [s] and agree with
    them at every occupied cell; nothing else differs. *)
Definition same_up_to_empty_cells (s s' : inputs) : Prop :=
  s' = with_moments s (mag_array_x s') (mag_array_y s') (mag_array_z s')
  ∧ ∀ a, length (mag s' a) = length (mag s a)
         ∧ ∀ j, occupied s j → cell (mag s' a) j = cell (mag s a) j.

(** Cell [i] is the one occupied cell of the system. *)
Definition only_occupied (s : inputs) (i : Z) : Prop :=
  (0 ≤ i < cells_num_cells s)%Z
  ∧ ∀ j, (0 ≤ j < cells_num_cells s)%Z → occupied s j ↔ j = i.

(** *** Small systems *)

(** One cell, owned and occupied; moment [(m, 0, 0)], tensor
    coefficient [xx = t], the other five zero. *)
Definition one_cell (act : bool) (vol m t : num) : inputs :=
  {| activated := act; err_check := false; my_rank := 0;
     cells_num_local_cells := 1; cells_num_cells := 1;
     cells_num_atoms_in_cell := [1%Z];
     cells_volume_array := [vol];
     cell_id_array := [0%Z];
     mag_array_x := [m]; mag_array_y := [zero]; mag_array_z := [zero];
     rij_tensor_xx := [[t]]; rij_tensor_xy := [[zero]]; rij_tensor_xz := [[zero]];
     rij_tensor_yy := [[zero]]; rij_tensor_yz := [[zero]];
     rij_tensor_zz := [[zero]] |}.

(** Two cells; this rank owns cell 1 only; occupancies [occ0], [occ1]. *)
Definition two_cells (act : bool) (occ0 occ1 : Z) (vol m0 m1 t : num) : inputs :=
  {| activated := act; err_check := true; my_rank := 0;
     cells_num_local_cells := 1; cells_num_cells := 2;
     cells_num_atoms_in_cell := [occ0; occ1];
     cells_volume_array := [vol; vol];
     cell_id_array := [1%Z];
     mag_array_x := [m0; m1]; mag_array_y := [m0; m1]; mag_array_z := [m0; m1];
     rij_tensor_xx := [[t; t]]; rij_tensor_xy := [[t; t]]; rij_tensor_xz := [[t; t]];
     rij_tensor_yy := [[t; t]]; rij_tensor_yz := [[t; t]];
     rij_tensor_zz := [[t; t]] |}.

(** Output arrays of [n] slots, every slot holding [x]. *)
Definition filled (n : nat) (x : num) : outputs :=
  {| cells_field_array_x := replicate n x; cells_field_array_y := replicate n x;
     cells_field_array_z := replicate n x;
     cells_mu0Hd_field_array_x := replicate n x;
     cells_mu0Hd_field_array_y := replicate n x;
     cells_mu0Hd_field_array_z := replicate n x;
     cerr := [] |}.

End Model.

(** *** The systems the examples below are run on *)

Set Warnings "-inexact-float".

(** One cell of 1000 cubic Angstrom in binary64. *)
Definition float_cell (m t : float) : @inputs binary64 :=
  @one_cell binary64 true 1000%float m t.

Definition float_blank : @outputs binary64 := @filled binary64 1 0%float.

(** Two cells in binary64, cell 0 empty, cell 1 holding three atoms and
    owned by this rank. *)
Definition float_pair (act : bool) : @inputs binary64 :=
  @two_cells binary64 act 0 3 1000%float 1e-23%float 2e-23%float 0.001%float.

Definition float_pair_blank : @outputs binary64 := @filled binary64 2 7%float.

(** [float_pair] with the moment of the empty cell 0 set to zero. *)
Definition float_pair_zeroed : @inputs binary64 :=
  @with_moments binary64 (float_pair true) [0%float; 2e-23%float]
    [0%float; 2e-23%float] [0%float; 2e-23%float].

(** The same two cells over the reals. *)
Definition real_pair : @inputs exact :=
  @two_cells exact true 0 3 1000%R 1%R 2%R 0.001%R.

Definition real_pair_blank : @outputs exact := @filled exact 2 0%R.

Set Warnings "inexact-float".

End Dipole.

(** ** vopencl::initialize *)

Module VOpenCL.

(** The compile-time switches of initialize.cpp. *)
Record build := {
  OPENCL : bool;
  OPENCL_DP : bool;
  OPENCL_USE_NATIVE_FUNCTIONS : bool;
  OPENCL_DEBUG : bool;
}.

(** A [cl::Device] and a [cl::Platform], as far as the function looks at
    them: the names it logs and what [getDevices(CL_DEVICE_TYPE_ALL)]
    returns. *)
Record Device := {
  CL_DEVICE_NAME : string;
  CL_DEVICE_VERSION : string;
}.

Record Platform := {
  CL_PLATFORM_NAME : string;
  getDevices : list Device;
}.

Section Model.

(** The device-resident buffers the eight staging routines fill; their
    content is outside this model. *)
Context {mem : Type}.

(** The process: the three streams, what the OpenCL runtime offers, and
    the globals of [vopencl::internal] that the function assigns. *)
Record world := {
  cout : list string;                    (* std::cout, one entry per line *)
  zlog : list string;                    (* zlog, the time stamp left out *)
  OCLLOG : list string;                  (* vcl::OCLLOG *)
  cl_platforms : list Platform;          (* what cl::Platform::get yields *)
  gpu_num_threads : Z;                   (* ::gpu::num_threads *)
  use_cpu : bool;                        (* vcl::stats::use_cpu *)
  default_device : option Device;        (* vcl::default_device *)
  context : option (list Device);        (* vcl::context *)
  queue : option Device;                 (* vcl::queue, on this device *)
  global : Z;                            (* vcl::global, an NDRange *)
  device_memory : mem;
}.

(** How a call ends: it returns, the process exits, or it runs into
    undefined behaviour. *)
Inductive outcome (A : Type) :=
| Returned (a : A) (w : world)
| Exited (w : world)
| Undefined.
#[global] Arguments Returned {A} a w.
#[global] Arguments Exited {A} w.
#[global] Arguments Undefined {A}.

Definition M (A : Type) : Type := world → outcome A.

Definition ret {A} (a : A) : M A := λ w, Returned a w.

Definition bind {A B} (m : M A) (k : A → M B) : M B :=
  λ w, match m w with
       | Returned a w' => k a w'
       | Exited w' => Exited w'
       | Undefined => Undefined
       end.

#[global] Instance M_ret : MRet M := @ret.
#[global] Instance M_bind : MBind M := λ A B k m, bind m k.

Definition modify (f : world → world) : M unit := λ w, Returned tt (f w).
Definition read {A} (f : world → A) : M A := λ w, Returned (f w) w.
Definition when (c : bool) (m : M unit) : M unit := if c then m else ret tt.

(** Modelled from the spec: [::err::vexit()], declared in errors.hpp and
    defined outside the two source files, terminates the process. *)
Definition vexit {A} : M A := λ w, Exited w.

(** [v[i]] on a [std::vector]: undefined outside the vector. *)
Definition index {A} (v : list A) (i : nat) : M A :=
  λ w, match v !! i with Some x => Returned x w | None => Undefined end.

(** One line on [std::cout], on [zlog], some lines on the debug log. *)
Definition print (msg : string) : M unit :=
  modify (λ w,
    {| cout := cout w ++ [msg]; zlog := zlog w; OCLLOG := OCLLOG w;
       cl_platforms := cl_platforms w; gpu_num_threads := gpu_num_threads w;
       use_cpu := use_cpu w; default_device := default_device w;
       context := context w; queue := queue w;
       global := global w; device_memory := device_memory w |}).

Definition log (msg : string) : M unit :=
  modify (λ w,
    {| cout := cout w; zlog := zlog w ++ [msg]; OCLLOG := OCLLOG w;
       cl_platforms := cl_platforms w; gpu_num_threads := gpu_num_threads w;
       use_cpu := use_cpu w; default_device := default_device w;
       context := context w; queue := queue w;
       global := global w; device_memory := device_memory w |}).

Definition debug (lines : list string) : M unit :=
  modify (λ w,
    {| cout := cout w; zlog := zlog w; OCLLOG := OCLLOG w ++ lines;
       cl_platforms := cl_platforms w; gpu_num_threads := gpu_num_threads w;
       use_cpu := use_cpu w; default_device := default_device w;
       context := context w; queue := queue w;
       global := global w; device_memory := device_memory w |}).

(** Assignments to the globals of [vopencl::internal]:
    [vcl::stats::use_cpu = flag], [vcl::default_device = d],
    [vcl::context = cl::Context({d})],
    [vcl::queue = cl::CommandQueue(vcl::context, d, ...)],
    [vcl::global = cl::NDRange(n)]. *)
Definition set_use_cpu (flag : bool) : M unit :=
  modify (λ w,
    {| cout := cout w; zlog := zlog w; OCLLOG := OCLLOG w;
       cl_platforms := cl_platforms w; gpu_num_threads := gpu_num_threads w;
       use_cpu := flag; default_device := default_device w;
       context := context w; queue := queue w;
       global := global w; device_memory := device_memory w |}).

Definition set_default_device (d : Device) : M unit :=
  modify (λ w,
    {| cout := cout w; zlog := zlog w; OCLLOG := OCLLOG w;
       cl_platforms := cl_platforms w; gpu_num_threads := gpu_num_threads w;
       use_cpu := use_cpu w; default_device := Some d;
       context := context w; queue := queue w;
       global := global w; device_memory := device_memory w |}).

Definition set_context (ds : list Device) : M unit :=
  modify (λ w,
    {| cout := cout w; zlog := zlog w; OCLLOG := OCLLOG w;
       cl_platforms := cl_platforms w; gpu_num_threads := gpu_num_threads w;
       use_cpu := use_cpu w; default_device := default_device w;
       context := Some ds; queue := queue w;
       global := global w; device_memory := device_memory w |}).

Definition set_queue (d : Device) : M unit :=
  modify (λ w,
    {| cout := cout w; zlog := zlog w; OCLLOG := OCLLOG w;
       cl_platforms := cl_platforms w; gpu_num_threads := gpu_num_threads w;
       use_cpu := use_cpu w; default_device := default_device w;
       context := context w; queue := Some d;
       global := global w; device_memory := device_memory w |}).

Definition set_global (n : Z) : M unit :=
  modify (λ w,
    {| cout := cout w; zlog := zlog w; OCLLOG := OCLLOG w;
       cl_platforms := cl_platforms w; gpu_num_threads := gpu_num_threads w;
       use_cpu := use_cpu w; default_device := default_device w;
       context := context w; queue := queue w;
       global := n; device_memory := device_memory w |}).

(** [unsigned] arithmetic. *)
Definition unsigned (n : Z) : Z := (n mod 2 ^ 32)%Z.

Variable bld : build.

(** The eight staging routines ([initialize_atoms] ... [initialize_kernels]):
    buffer staging is outside the model, so each is an arbitrary action. *)
Variables initialize_atoms initialize_fields initialize_cells
  initialize_materials initialize_topology initialize_stats
  initialize_rng initialize_kernels : M bool.

Definition enabled_message : string :=
  ("OpenCL has been enabled in "
   ++ (if OPENCL_DP bld then "double precision mode." else "single precision mode.")
   ++ (if OPENCL_USE_NATIVE_FUNCTIONS bld then " Native functions will be used." else ""))%string.

Definition no_platforms_message : string :=
  "Error: OpenCL is enabled but no platforms are available.".

Definition no_devices_message : string :=
  "Error: OpenCL is enabled but no suitable devices can be found.".

(** What the loop of lines 86-101 writes to the debug log for one platform. *)
Definition found (p : Platform) : list string :=
  ("Found platform " ++ CL_PLATFORM_NAME p)%string
  :: concat ((λ d, [("Found device " ++ CL_DEVICE_NAME d)%string;
                    ("with version " ++ CL_DEVICE_VERSION d)%string])
             <$> getDevices p).

(** [ndevices] after the loop has run over [ps], from [n]. *)
Definition count_devices (ps : list Platform) (n : Z) : Z :=
  foldl (λ n p, unsigned (n + Z.of_nat (length (getDevices p)))) n ps.

(** Lines 132-141: [success = true], then [success &=] each routine. *)
Definition stage : M bool :=
  b1 ← initialize_atoms;
  b2 ← initialize_fields;
  b3 ← initialize_cells;
  b4 ← initialize_materials;
  b5 ← initialize_topology;
  b6 ← initialize_stats;
  b7 ← initialize_rng;
  b8 ← initialize_kernels;
  ret (true && b1 && b2 && b3 && b4 && b5 && b6 && b7 && b8).

(** [bool vopencl::initialize(bool cpu_stats)] *)
Definition initialize (cpu_stats : bool) : M bool :=
  if negb (OPENCL bld) then ret false
  else
    print enabled_message ;;
    log enabled_message ;;
    set_use_cpu true ;;
    platforms ← read cl_platforms;
    let nplatforms := unsigned (Z.of_nat (length platforms)) in
    when (nplatforms =? 0)%Z
      (print no_platforms_message ;; log no_platforms_message ;; vexit) ;;
    let visited := take (Z.to_nat nplatforms) platforms in
    let devices := getDevices <$> visited in
    let ndevices := count_devices visited 0 in
    when (OPENCL_DEBUG bld) (debug (concat (found <$> visited))) ;;
    when (ndevices =? 0)%Z
      (print no_devices_message ;; log no_devices_message ;; vexit) ;;
    default_platform ← index platforms 0;
    row ← index devices 0;
    device ← index row 0;
    set_default_device device ;;
    when (OPENCL_DEBUG bld)
      (debug [("Using default platform " ++ CL_PLATFORM_NAME default_platform)%string;
              ("Using default device " ++ CL_DEVICE_NAME device)%string]) ;;
    set_context [device] ;;
    set_queue device ;;
    num_threads ← read gpu_num_threads;
    set_global (if (0 <? num_threads)%Z then num_threads else 4%Z) ;;
    stage.

End Model.

Arguments world : clear implicits.
Arguments outcome : clear implicits.
Arguments M : clear implicits.

(** *** A run to try the statements on *)

Definition demo_build : build :=
  {| OPENCL := true; OPENCL_DP := true; OPENCL_USE_NATIVE_FUNCTIONS := false;
     OPENCL_DEBUG := true |}.

(** A staging routine that succeeds, as each of those in initialize.cpp
    ends in [return true]. *)
Definition staged : M unit bool := ret true.

Definition demo_world (ps : list Platform) : world unit :=
  {| cout := []; zlog := []; OCLLOG := []; cl_platforms := ps;
     gpu_num_threads := 0; use_cpu := false; default_device := None;
     context := None; queue := None; global := 0; device_memory := tt |}.

End VOpenCL.


(** ** update_field: duplicates in the local cell list, added moments *)

Module DipoleMore.
Import Arith Dipole.
Section Model.
Context `{Scalar}.

(** Local index [lc] names an occupied cell whose slot is [k]. *)
Definition writes (s : inputs) (k : nat) (lc : Z) : Prop :=
  occupied s (cell (cell_id_array s) lc) ∧ Z.to_nat (cell (cell_id_array s) lc) = k.

#[global]
Instance writes_dec (s : inputs) (k : nat) (lc : Z) : Decision (writes s k lc).
Proof. unfold writes. apply _. Defined.

(** The last of the local indices [lcs] that writes slot [k]. *)
Definition last_writer (s : inputs) (lcs : list Z) (k : nat) : option Z :=
  last (filter (writes s k) lcs).

(** The moments of [s] plus, cell by cell, the moments [mx], [my], [mz]. *)
Definition add_moments (s : inputs) (mx my mz : list num) : inputs :=
  with_moments s (zip_with add (mag_array_x s) mx) (zip_with add (mag_array_y s) my)
    (zip_with add (mag_array_z s) mz).

End Model.

(** *** More systems to run *)

Set Warnings "-inexact-float".

(** One owned cell whose id, 5, is outside the two cells of the system:
    activated, no diagnostic, rank 0, one local cell, two cells, three
    atoms in each, volumes, the local cell list, the moments, the six
    tensor components. *)
Definition float_stray : @inputs binary64 :=
  let row := [0%float; 0%float] in
  let m := [1e-23%float; 2e-23%float] in
  @Build_inputs binary64 true false 0 1 2 [3%Z; 3%Z] [1000%float; 1000%float]
    [5%Z] m m m [row] [row] [row] [row] [row] [row].

(** Cell 1 listed at both local indices, with tensor rows that differ. *)
Definition float_twice : @inputs binary64 :=
  let row0 := [0.001%float; 0.001%float] in
  let row1 := [0.002%float; 0.002%float] in
  let m := [1e-23%float; 2e-23%float] in
  @Build_inputs binary64 true false 0 2 2 [3%Z; 3%Z] [1000%float; 1000%float]
    [1%Z; 1%Z] m m m [row0; row1] [row0; row1] [row0; row1] [row0; row1]
    [row0; row1] [row0; row1].

(** Two cells, the occupied one not owned and the owned one empty. *)
Definition float_unowned : @inputs binary64 :=
  @two_cells binary64 true 3 0 1000%float 1e-23%float 2e-23%float 0.001%float.

Set Warnings "inexact-float".

End DipoleMore.

(** ** initialize: counting devices, staging routines that succeed *)

Module VOpenCLMore.
Import VOpenCL.

(** The devices of all the platforms [ps], counted without wrap-around. *)
Definition total_devices (ps : list Platform) : nat :=
  sum_list ((λ p, length (getDevices p)) <$> ps).

(** A staging routine that comes back with [true] whatever the state. *)
Definition returns_true {mem : Type} (routine : M mem bool) : Prop :=
  ∀ w, ∃ w', routine w = Returned true w'.

(** A platform with one device, to run [initialize] on. *)
Definition demo_device : Device :=
  {| CL_DEVICE_NAME := "D0"; CL_DEVICE_VERSION := "OpenCL 1.2" |}.

Definition demo_platform : Platform :=
  {| CL_PLATFORM_NAME := "P0"; getDevices := [demo_device] |}.

End VOpenCLMore.

(** ** rand64 and the seeds of initialize_rng *)

Module Rng.

(** A value as a [cl_ulong]: 64 bits, unsigned. *)
Definition cl_ulong (z : Z) : Z := (z mod 2 ^ 64)%Z.

(** [INT_MAX] for the 32-bit [int] of the platform. *)
Definition INT_MAX : Z := (2 ^ 31 - 1)%Z.

(** How the seed computation ends: with the vector, with the loop still
    drawing zeros when the fuel is spent, or in a fault (a negative or
    overflowing vector size). *)
Inductive run (A : Type) :=
| Done (a : A)
| OutOfFuel
| Fault.
#[global] Arguments Done {A} a.
#[global] Arguments OutOfFuel {A}.
#[global] Arguments Fault {A}.

Section Model.

(** The values [std::rand()] returns after [std::srand(1)], in call order;
    the state threaded below is the number of calls made so far. *)
Variable rand : nat → Z.

(** [static cl_ulong rand64(void)]:
    [cl_ulong r = std::rand(); return r << 32 | std::rand();] *)
Definition rand64 (calls : nat) : Z * nat :=
  let r := cl_ulong (rand calls) in
  (Z.lor (cl_ulong (Z.shiftl r 32)) (cl_ulong (rand (S calls))), S (S calls)).

(** [do { elem = rand64(); } while (elem == 0);], at most [fuel] rounds. *)
Fixpoint draw (fuel : nat) (calls : nat) : option (Z * nat) :=
  match fuel with
  | O => None
  | S fuel' =>
      let '(elem, calls') := rand64 calls in
      if (elem =? 0)%Z then draw fuel' calls' else Some (elem, calls')
  end.

(** [for (auto &elem : rs) ...] over a vector of [n] elements. *)
Fixpoint fill (fuel : nat) (n : nat) (calls : nat) : option (list Z * nat) :=
  match n with
  | O => Some ([], calls)
  | S n' =>
      '(elem, calls1) ← draw fuel calls;
      '(rest, calls2) ← fill fuel n' calls1;
      Some (elem :: rest, calls2)
  end.

(** The vector [rs] of [initialize_rng] (lines 366, 374-377):
    [std::vector<cl_ulong> rs(::atoms::num_atoms*3)], [std::srand(1)],
    then the loop. *)
Definition initialize_rng_seeds (fuel : nat) (num_atoms : Z) : run (list Z) :=
  if decide (0 ≤ num_atoms * 3 ≤ INT_MAX)%Z
  then match fill fuel (Z.to_nat (num_atoms * 3)) 0 with
       | Some (rs, _) => Done rs
       | None => OutOfFuel
       end
  else Fault.

End Model.

(** A generator that returns 1 at every call, to run the loop on. *)
Definition ones : nat → Z := λ _, 1%Z.

End Rng.

(** ** The limits array of initialize_topology *)

Module Topology.
Import Dipole.

Definition INT_MAX : Z := (2 ^ 31 - 1)%Z.

(** [v[i] = x] on a [std::vector<cl_int>]; undefined outside the vector. *)
Definition set_at (v : list Z) (i : Z) (x : Z) : option (list Z) :=
  if decide (0 ≤ i < Z.of_nat (length v))%Z
  then Some (<[Z.to_nat i := x]> v) else None.

(** [for (int atom=0; atom<num_atoms; ++atom)
       limits_h[atom+1] = neighbour_list_end_index[atom]+1;]
    The sum is an [int]: undefined when it overflows. *)
Fixpoint fill_limits (atoms : list Z) (neighbour_list_end_index : list Z)
    (limits_h : list Z) : option (list Z) :=
  match atoms with
  | [] => Some limits_h
  | atom :: rest =>
      e ← get neighbour_list_end_index atom;
      if decide (e + 1 ≤ INT_MAX)%Z
      then limits_h' ← set_at limits_h (atom + 1) (e + 1);
           fill_limits rest neighbour_list_end_index limits_h'
      else None
  end.

(** [limits_h] as [initialize_topology] builds it (lines 269-271):
    [std::vector<cl_int> limits_h(::atoms::num_atoms+1, 0)], then the
    loop.  A size that is negative or overflows [int] is a fault. *)
Definition limits_h (num_atoms : Z) (neighbour_list_end_index : list Z)
    : option (list Z) :=
  if decide (0 ≤ num_atoms + 1 ≤ INT_MAX)%Z
  then fill_limits (seqZ 0 num_atoms) neighbour_list_end_index
         (replicate (Z.to_nat (num_atoms + 1)) 0%Z)
  else None.

End Topology.

(** ** Properties of update_field *)

Module DipoleFacts.
Import Arith Dipole.

(** *** In any arithmetic

    Nothing in this section uses a law of [add], [mul] or [div]: the
    statements hold for binary64 as they do for the reals. *)

Section Facts.
Context `{Scalar}.
Implicit Types (s : inputs) (o : outputs) (q : quantity) (a : axis).

Lemma get_ok {A} `{Inhabited A} (v : list A) (i : Z) :
  (0 ≤ i)%Z → (Z.to_nat i < length v)%nat → get v i = Some (cell v i).
Proof.
  intros Hi Hlen. unfold get, cell. rewrite decide_True by done.
  by apply list_lookup_lookup_total_lt.
Qed.

Lemma upd_ok (v : list num) (i : Z) f :
  (0 ≤ i)%Z → (Z.to_nat i < length v)%nat →
  upd v i f = Some (alter f (Z.to_nat i) v).
Proof. intros Hi Hlen. unfold upd. rewrite decide_True; [done | lia]. Qed.

Lemma rows_ok_get2 nl n (t : list (list num)) (l j : Z) :
  rows_ok nl n t → (0 ≤ l)%Z → (Z.to_nat l < nl)%nat → (0 ≤ j)%Z → (Z.to_nat j < n)%nat →
  get2 t l j = Some (entry t l j).
Proof.
  intros [Hlen Hrows] Hl Hl' Hj Hj'. unfold get2, entry.
  rewrite (get_ok t l) by (done || lia). simpl.
  apply get_ok; [done |].
  rewrite Forall_lookup in Hrows.
  specialize (Hrows (Z.to_nat l) (cell t l)).
  assert (take nl t !! Z.to_nat l = Some (cell t l)) as Hk.
  { rewrite lookup_take_lt by done. apply list_lookup_lookup_total_lt. lia. }
  specialize (Hrows Hk). simpl in Hrows. lia.
Qed.

Lemma arr_at_cell q a k g o : arr q a (at_cell k g o) = alter (g q a) k (arr q a o).
Proof. by destruct q, a. Qed.

Lemma outputs_eq o o' :
  (∀ q a, arr q a o = arr q a o') → cerr o = cerr o' → o = o'.
Proof.
  intros Ha Hc. destruct o, o'. simpl in *.
  pose proof (Ha Total ax_x). pose proof (Ha Total ax_y). pose proof (Ha Total ax_z).
  pose proof (Ha Demag ax_x). pose proof (Ha Demag ax_y). pose proof (Ha Demag ax_z).
  simpl in *. congruence.
Qed.

Lemma at_cell_ext k g g' o :
  (∀ q a x, arr q a o !! k = Some x → g q a x = g' q a x) →
  at_cell k g o = at_cell k g' o.
Proof.
  intros Hg. apply outputs_eq; [| done]. intros q a. rewrite !arr_at_cell.
  apply list_alter_ext; [| done]. intros x Hx; by apply Hg.
Qed.

Lemma at_cell_at_cell k g g' o :
  at_cell k g' (at_cell k g o) = at_cell k (λ q a x, g' q a (g q a x)) o.
Proof.
  apply outputs_eq; [| done]. intros q a. rewrite !arr_at_cell.
  by rewrite list_alter_alter_eq.
Qed.

Lemma at_cell_id k o : at_cell k (λ _ _ x, x) o = o.
Proof.
  apply outputs_eq; [| done]. intros q a. rewrite arr_at_cell.
  by apply list_alter_id.
Qed.

Lemma outputs_ok_at_cell s k g o : outputs_ok s o → outputs_ok s (at_cell k g o).
Proof. intros Ho q a. rewrite arr_at_cell, length_alter. apply Ho. Qed.


(** The index conditions under which one pass of the outer body at local
    index [lc] stays inside every vector. *)
Lemma inputs_ok_mag s a (j : Z) :
  inputs_ok s → (0 ≤ j < cells_num_cells s)%Z → (Z.to_nat j < length (mag s a))%nat.
Proof. intros (_ & _ & _ & _ & Hm & _) Hj. specialize (Hm a). lia. Qed.

Lemma pair_step_eq s o (lc i j : Z) :
  inputs_ok s → outputs_ok s o →
  (0 ≤ lc < cells_num_local_cells s)%Z →
  (0 ≤ i < cells_num_cells s)%Z → (0 ≤ j < cells_num_cells s)%Z →
  pair_step s lc i j o =
  Some (if decide (occupied s j)
        then at_cell (Z.to_nat i) (λ _ a x, add x (contraction s a lc j)) o
        else o).
Proof.
  intros Hs Ho Hlc Hi Hj.
  pose proof (inputs_ok_mag s ax_x j Hs Hj) as Hmx.
  pose proof (inputs_ok_mag s ax_y j Hs Hj) as Hmy.
  pose proof (inputs_ok_mag s ax_z j Hs Hj) as Hmz.
  destruct Hs as (_ & _ & Hn & _ & _ & Hxx & Hxy & Hxz & Hyy & Hyz & Hzz).
  unfold pair_step.
  rewrite (get_ok (cells_num_atoms_in_cell s) j) by lia. simpl.
  destruct (decide (occupied s j)) as [Hocc|Hocc]; unfold occupied in Hocc;
    [| by rewrite decide_False].
  rewrite decide_True by done.
  rewrite (get_ok (mag_array_x s) j), (get_ok (mag_array_y s) j),
    (get_ok (mag_array_z s) j) by (done || lia). simpl.
  rewrite (rows_ok_get2 _ _ _ lc j Hxx), (rows_ok_get2 _ _ _ lc j Hxy),
    (rows_ok_get2 _ _ _ lc j Hxz), (rows_ok_get2 _ _ _ lc j Hyy),
    (rows_ok_get2 _ _ _ lc j Hyz), (rows_ok_get2 _ _ _ lc j Hzz) by lia. simpl.
  pose proof (Ho Total ax_x). pose proof (Ho Total ax_y). pose proof (Ho Total ax_z).
  pose proof (Ho Demag ax_x). pose proof (Ho Demag ax_y). pose proof (Ho Demag ax_z).
  simpl in *.
  rewrite !upd_ok by lia. simpl. done.
Qed.

Lemma inner_loop_eq s o (lc i : Z) (js : list Z) :
  inputs_ok s → outputs_ok s o →
  (0 ≤ lc < cells_num_local_cells s)%Z → (0 ≤ i < cells_num_cells s)%Z →
  Forall (λ j, 0 ≤ j < cells_num_cells s)%Z js →
  run_loop (pair_step s lc i) js o =
  Some (at_cell (Z.to_nat i) (λ _ a x, pair_sum s a lc (filter (occupied s) js) x) o).
Proof.
  intros Hs Ho Hlc Hi Hjs. revert o Ho.
  induction Hjs as [| j js Hj Hjs IH]; intros o Ho.
  - simpl. by rewrite at_cell_id.
  - simpl. rewrite pair_step_eq by done. simpl.
    rewrite filter_cons. destruct (decide (occupied s j)) as [Hocc|Hocc].
    + rewrite IH by by apply outputs_ok_at_cell.
      by rewrite at_cell_at_cell.
    + by rewrite IH.
Qed.


Lemma local_cell_in_range s (lc : Z) :
  inputs_ok s → (0 ≤ lc < cells_num_local_cells s)%Z →
  get (cell_id_array s) lc = Some (cell (cell_id_array s) lc)
  ∧ (0 ≤ cell (cell_id_array s) lc < cells_num_cells s)%Z.
Proof.
  intros (Hlen & Hids & _) Hlc.
  assert (cell_id_array s !! Z.to_nat lc = Some (cell (cell_id_array s) lc)) as Hk.
  { apply list_lookup_lookup_total_lt. lia. }
  split; [apply get_ok; lia |].
  rewrite Forall_lookup in Hids. apply (Hids (Z.to_nat lc)).
  rewrite lookup_take_lt by lia. done.
Qed.

Lemma seqZ_in_range (n : Z) : Forall (λ j, 0 ≤ j < n)%Z (seqZ 0 n).
Proof. apply Forall_forall. intros j Hj. apply elem_of_seqZ in Hj. lia. Qed.

Lemma cell_step_eq s o (lc : Z) :
  inputs_ok s → outputs_ok s o → (0 ≤ lc < cells_num_local_cells s)%Z →
  cell_step s lc o =
  Some (let i := cell (cell_id_array s) lc in
        if decide (occupied s i)
        then at_cell (Z.to_nat i) (λ q a _, field_value s q a lc i) o
        else o).
Proof.
  intros Hs Ho Hlc.
  destruct (local_cell_in_range s lc Hs Hlc) as [Hget Hi].
  set (i := cell (cell_id_array s) lc) in *. simpl.
  pose proof (inputs_ok_mag s ax_x i Hs Hi) as Hmx.
  pose proof (inputs_ok_mag s ax_y i Hs Hi) as Hmy.
  pose proof (inputs_ok_mag s ax_z i Hs Hi) as Hmz.
  pose proof Hs as (_ & _ & Hn & Hv & _).
  unfold cell_step. rewrite Hget. simpl.
  rewrite (get_ok (cells_num_atoms_in_cell s) i) by lia. simpl.
  destruct (decide (occupied s i)) as [Hocc|Hocc]; unfold occupied in Hocc;
    [| by rewrite decide_False].
  rewrite decide_True by done.
  rewrite (get_ok (cells_volume_array s) i), (get_ok (mag_array_x s) i),
    (get_ok (mag_array_y s) i), (get_ok (mag_array_z s) i) by (done || lia). simpl.
  pose proof (Ho Total ax_x). pose proof (Ho Total ax_y). pose proof (Ho Total ax_z).
  pose proof (Ho Demag ax_x). pose proof (Ho Demag ax_y). pose proof (Ho Demag ax_z).
  simpl in *.
  rewrite !upd_ok by lia. simpl.
  match goal with
  | |- context [run_loop _ _ ?o1] =>
      change o1 with (at_cell (Z.to_nat i) (λ q a _, self_term s q a i) o)
  end.
  rewrite inner_loop_eq;
    [| done | by apply outputs_ok_at_cell | done | done | apply seqZ_in_range].
  simpl. rewrite !upd_ok by (rewrite ?length_alter; lia). simpl.
  f_equal. apply outputs_eq; [| done].
  intros q a. rewrite arr_at_cell.
  destruct q, a; simpl; rewrite !list_alter_alter_eq; done.
Qed.


Lemma outputs_ok_cell_result s lc o : outputs_ok s o → outputs_ok s (cell_result s lc o).
Proof.
  intros Ho. unfold cell_result. simpl. case_decide; [by apply outputs_ok_at_cell | done].
Qed.

Lemma outer_loop_eq s o lcs :
  inputs_ok s → outputs_ok s o → Forall (λ lc, 0 ≤ lc < cells_num_local_cells s)%Z lcs →
  run_loop (cell_step s) lcs o = Some (foldl (λ o lc, cell_result s lc o) o lcs).
Proof.
  intros Hs Ho Hlcs. revert o Ho.
  induction Hlcs as [| lc lcs Hlc Hlcs IH]; intros o Ho; [done |].
  simpl. rewrite cell_step_eq by done. simpl.
  apply IH. by apply outputs_ok_cell_result.
Qed.

Lemma outer_loop_cerr s o lcs :
  cerr (foldl (λ o lc, cell_result s lc o) o lcs) = cerr o.
Proof.
  revert o. induction lcs as [| lc lcs IH]; intros o; [done |].
  simpl. rewrite IH. unfold cell_result. simpl. by case_decide.
Qed.

(** Slots other than those of the occupied cells visited keep their content. *)
Lemma outer_loop_frame s o lcs q a (k : nat) :
  (∀ lc, lc ∈ lcs → occupied s (cell (cell_id_array s) lc) →
         Z.to_nat (cell (cell_id_array s) lc) ≠ k) →
  arr q a (foldl (λ o lc, cell_result s lc o) o lcs) !! k = arr q a o !! k.
Proof.
  revert o. induction lcs as [| lc lcs IH]; intros o Hk; [done |].
  simpl. rewrite IH by (intros lc' Hin; apply Hk; by right).
  unfold cell_result. simpl. case_decide as Hocc; [| done].
  rewrite arr_at_cell. apply list_lookup_alter_ne. apply Hk; [by left | done].
Qed.

(** The slot of an occupied cell visited holds the value of its last visit. *)
Lemma outer_loop_value s o lcs q a (lc : Z) :
  let i := cell (cell_id_array s) lc in
  lc ∈ lcs → occupied s i →
  (∀ lc', lc' ∈ lcs → lc' ≠ lc → Z.to_nat (cell (cell_id_array s) lc') ≠ Z.to_nat i) →
  (Z.to_nat i < length (arr q a o))%nat →
  arr q a (foldl (λ o lc, cell_result s lc o) o lcs) !! Z.to_nat i
  = Some (field_value s q a lc i).
Proof.
  intros i Hin Hocc Hinj. revert o.
  induction lcs as [| lc0 lcs IH]; intros o Hlen; [by apply elem_of_nil in Hin |].
  simpl. destruct (decide (lc ∈ lcs)) as [Hin'|Hnin].
  - apply IH; [done | intros lc' ? ?; apply Hinj; [by right | done] |].
    unfold cell_result. simpl. case_decide; [| done].
    by rewrite arr_at_cell, length_alter.
  - apply elem_of_cons in Hin as [->|]; [| done].
    rewrite outer_loop_frame.
    + unfold cell_result. simpl. fold i. rewrite decide_True by done.
      rewrite arr_at_cell, list_lookup_alter_eq.
      destruct (lookup_lt_is_Some_2 _ _ Hlen) as [x ->]. done.
    + intros lc' Hin' _. apply Hinj; [by right |]. intros ->. done.
Qed.


Lemma outputs_ok_report s o : outputs_ok s o → outputs_ok s (report s o).
Proof. intros Ho q a. specialize (Ho q a). by destruct q, a. Qed.

Lemma arr_report s o q a : arr q a (report s o) = arr q a o.
Proof. by destruct q, a. Qed.

Lemma outputs_ok_entered s o : outputs_ok s o → outputs_ok s (entered s o).
Proof. unfold entered. destruct (err_check s); [apply outputs_ok_report | done]. Qed.

Lemma arr_entered s o q a : arr q a (entered s o) = arr q a o.
Proof. unfold entered. destruct (err_check s); [apply arr_report | done]. Qed.

(** What [update_field] returns when the shapes are right. *)
Lemma update_field_eq s o :
  well_formed s o →
  update_field s o =
  Some (if activated s
        then foldl (λ o lc, cell_result s lc o) (entered s o) (all_local s)
        else o).
Proof.
  intros [Hs Ho]. unfold update_field. destruct (activated s); [| done]. simpl.
  apply outer_loop_eq; [done | by apply outputs_ok_entered | apply seqZ_in_range].
Qed.

Lemma local_cells_lookup s (lc : Z) :
  inputs_ok s → (0 ≤ lc < cells_num_local_cells s)%Z →
  local_cells s !! Z.to_nat lc = Some (cell (cell_id_array s) lc).
Proof.
  intros (Hlen & _) Hlc. unfold local_cells. rewrite lookup_take_lt by lia.
  apply list_lookup_lookup_total_lt. lia.
Qed.

Lemma local_cells_inj s (lc lc' : Z) :
  inputs_ok s → NoDup (local_cells s) →
  (0 ≤ lc < cells_num_local_cells s)%Z → (0 ≤ lc' < cells_num_local_cells s)%Z →
  Z.to_nat (cell (cell_id_array s) lc') = Z.to_nat (cell (cell_id_array s) lc) →
  lc' = lc.
Proof.
  intros Hs Hnd Hlc Hlc' Heq.
  destruct (local_cell_in_range s lc Hs Hlc) as [_ Hi].
  destruct (local_cell_in_range s lc' Hs Hlc') as [_ Hi'].
  assert (cell (cell_id_array s) lc' = cell (cell_id_array s) lc) as Hid by lia.
  pose proof (local_cells_lookup s lc Hs Hlc) as Hk.
  pose proof (local_cells_lookup s lc' Hs Hlc') as Hk'.
  rewrite Hid in Hk'.
  pose proof (NoDup_lookup _ _ _ _ Hnd Hk Hk'). lia.
Qed.

Lemma get_arr_Some (v : list num) (i : Z) (x : num) :
  (0 ≤ i)%Z → v !! Z.to_nat i = Some x → get v i = Some x.
Proof. intros Hi Hx. unfold get. by rewrite decide_True. Qed.

(** The call returns when the shapes are right. *)
Lemma update_field_defined s o : well_formed s o → is_Some (update_field s o).
Proof. intros Hwf. rewrite update_field_eq by done. eauto. Qed.

(** After an activated run, the slot of a locally-owned occupied cell
    holds [field_value]. *)
Lemma update_field_result s o o' (lc i : Z) q a :
  well_formed s o → activated s = true → NoDup (local_cells s) →
  (0 ≤ lc < cells_num_local_cells s)%Z →
  get (cell_id_array s) lc = Some i → occupied s i →
  update_field s o = Some o' →
  get (arr q a o') i = Some (field_value s q a lc i).
Proof.
  intros Hwf Hact Hnd Hlc Hget Hocc Hrun. pose proof Hwf as [Hs Ho].
  destruct (local_cell_in_range s lc Hs Hlc) as [Hget' Hi].
  rewrite Hget in Hget'. injection Hget' as ->.
  rewrite update_field_eq, Hact in Hrun by done. injection Hrun as <-.
  apply get_arr_Some; [lia |].
  apply (outer_loop_value s (entered s o) (all_local s) q a lc).
  - apply elem_of_seqZ. lia.
  - done.
  - intros lc' Hin Hne Heq. apply elem_of_seqZ in Hin.
    apply Hne. apply (local_cells_inj s lc lc'); (done || lia).
  - rewrite arr_entered. specialize (Ho q a). lia.
Qed.

(** Extra X1.  What a call writes to the error stream: the one-line
    diagnostic naming the rank, between the two colour switches, when the
    subsystem is activated and [err::check] is set; nothing otherwise. *)
Theorem update_field_diagnostic s o :
  well_formed s o →
  ∃ o', update_field s o = Some o'
        ∧ cerr o' = cerr o ++ (if activated s && err_check s
                               then [terminaltextcolor RED;
                                     update_called (my_rank s);
                                     terminaltextcolor WHITE]
                               else []).
Proof.
  intros Hwf. eexists. split; [by apply update_field_eq |].
  destruct (activated s); simpl; [| by rewrite app_nil_r].
  rewrite outer_loop_cerr. unfold entered.
  destruct (err_check s); simpl; [done | by rewrite app_nil_r].
Qed.

(** Claim C1.  For every locally-owned cell [i] (local index [lc]) with
    occupancy count above zero, an activated [update_field] leaves

      Total Dipolar Field[i]       = (self_demag(V_i) * m^_i + S) * 0.9274009994
      Demagnetizing Pseudo-Field[i] = (-0.5 * self_demag(V_i) * m^_i + S) * 0.9274009994

    in each of the three components, where [self_demag V = 8 pi / (3 V)],
    [m^_i] is the moment of cell [i] times [1.0 / 9.274009994e-24], and
    [+ S] adds, in index order, the six-coefficient contraction of
    T(lc,j) with [m^_j] for every global cell [j] with occupancy above
    zero ([pair_sum] over [sources]).  The same final constant multiplies
    both arrays.  The statement uses no law of the arithmetic, so it holds
    of the doubles the program computes with; [field_value_exact] below
    gives the same value as [0.9274009994 * (sd * (m / muB) + S)] over the
    reals.  The shapes assumed ([well_formed]) make every index of the two
    loops fall inside its vector, and the local cell list has no
    repetition. *)
Theorem update_field_formula s o (lc i : Z) :
  well_formed s o → activated s = true → NoDup (local_cells s) →
  (0 ≤ lc < cells_num_local_cells s)%Z →
  get (cell_id_array s) lc = Some i → occupied s i →
  ∃ o', update_field s o = Some o'
    ∧ ∀ a,
        get (arr Total a o') i
        = Some (mul (pair_sum s a lc (sources s)
                       (mul (self_demag (cell (cells_volume_array s) i))
                            (normalise (cell (mag s a) i))))
                    lit_scale)
      ∧ get (arr Demag a o') i
        = Some (mul (pair_sum s a lc (sources s)
                       (mul (mul (opp lit_0_5)
                                 (self_demag (cell (cells_volume_array s) i)))
                            (normalise (cell (mag s a) i))))
                    lit_scale).
Proof.
  intros Hwf Hact Hnd Hlc Hget Hocc.
  destruct (update_field_defined s o Hwf) as [o' Hrun].
  exists o'. split; [done |]. intros a. split.
  - apply (update_field_result s o o' lc i Total a); done.
  - apply (update_field_result s o o' lc i Demag a); done.
Qed.

(** Claim C3.  Whatever the two output arrays hold, with the activation
    flag false [update_field] returns them as they are, at every index
    (and writes nothing to the error stream). *)
Theorem update_field_inactive s o :
  activated s = false → update_field s o = Some o.
Proof. intros Hact. unfold update_field. by rewrite Hact. Qed.

Lemma local_cell_elem s (lc : Z) :
  inputs_ok s → (0 ≤ lc < cells_num_local_cells s)%Z →
  cell (cell_id_array s) lc ∈ local_cells s.
Proof.
  intros Hs Hlc. apply list_elem_of_lookup. exists (Z.to_nat lc).
  by apply local_cells_lookup.
Qed.

(** Claim C4.  A global cell index [i] that has no occupancy, or that is
    not in the Local Cell Set, keeps its slot in both output arrays, in
    all three components: the function never writes there, and so never
    zero-initialises it. *)
Theorem update_field_frame s o (i : Z) :
  well_formed s o → ¬ occupied s i ∨ i ∉ local_cells s →
  ∃ o', update_field s o = Some o'
        ∧ ∀ q a, get (arr q a o') i = get (arr q a o) i.
Proof.
  intros Hwf Hi. pose proof Hwf as [Hs Ho].
  eexists. split; [by apply update_field_eq |].
  destruct (activated s); [| done].
  intros q a. unfold get. case_decide as Hnn; [| done].
  rewrite outer_loop_frame; [by rewrite arr_entered |].
  intros lc Hin Hocc Heq. apply elem_of_seqZ in Hin.
  destruct (local_cell_in_range s lc Hs) as [_ Hrange]; [lia |].
  assert (cell (cell_id_array s) lc = i) as Hid by lia.
  destruct Hi as [Hi|Hi]; [by rewrite Hid in Hocc |].
  apply Hi. rewrite <- Hid. apply local_cell_elem; [done | lia].
Qed.


Lemma inputs_ok_same s s' :
  same_up_to_empty_cells s s' → inputs_ok s → inputs_ok s'.
Proof.
  intros [-> Hm] (Hlen & Hids & Hn & Hv & Hmag & Hrows). simpl in *.
  repeat split; try done; try apply Hrows.
  intros a. destruct (Hm a) as [Hl _]. specialize (Hmag a).
  destruct a; simpl in *; lia.
Qed.

Lemma pair_sum_ext s s' a (l : Z) js base :
  Forall (λ j, contraction s' a l j = contraction s a l j) js →
  pair_sum s' a l js base = pair_sum s a l js base.
Proof.
  intros Hjs. revert base. unfold pair_sum.
  induction Hjs as [| j js Hj Hjs IH]; intros base; [done |].
  simpl. rewrite Hj. apply IH.
Qed.

Lemma field_value_same s s' q a (l i : Z) :
  same_up_to_empty_cells s s' → occupied s i →
  field_value s' q a l i = field_value s q a l i.
Proof.
  intros [Hs' Hm] Hocc.
  assert (∀ b j, occupied s j → cell (mag s' b) j = cell (mag s b) j) as Hcell
    by (intros b j; apply (Hm b)).
  pose proof (Hcell a i Hocc) as Hai. clear Hm.
  unfold field_value. f_equal.
  assert (sources s' = sources s) as -> by (by rewrite Hs').
  assert (self_term s' q a i = self_term s q a i) as ->.
  { unfold self_term. rewrite Hai. by rewrite Hs'. }
  apply pair_sum_ext. apply Forall_forall. intros j Hj.
  apply list_elem_of_filter in Hj as [Hj _].
  pose proof (Hcell ax_x j Hj) as Hx. pose proof (Hcell ax_y j Hj) as Hy.
  pose proof (Hcell ax_z j Hj) as Hz. simpl in Hx, Hy, Hz.
  unfold contraction. rewrite Hx, Hy, Hz. by rewrite Hs'.
Qed.

Lemma cell_result_same s s' lc o :
  same_up_to_empty_cells s s' → cell_result s' lc o = cell_result s lc o.
Proof.
  intros Hsame. pose proof Hsame as [Hs' _]. unfold cell_result.
  assert (cell_id_array s' = cell_id_array s) as -> by (by rewrite Hs').
  simpl. destruct (decide (occupied s (cell (cell_id_array s) lc))) as [Hocc|Hocc].
  - rewrite decide_True by (by rewrite Hs').
    apply at_cell_ext. intros q a x _. by apply field_value_same.
  - rewrite decide_False by (by rewrite Hs'). done.
Qed.

(** Claim C5.  Two input states that differ only in the moment vectors
    of cells whose occupancy count is not above zero (zeroing them, say)
    give the same content in both output arrays, at every occupied cell
    index and at every other index too: a cell without occupancy never
    contributes as a source. *)
Theorem update_field_ignores_empty_cells s s' o :
  well_formed s o → same_up_to_empty_cells s s' →
  ∃ o1 o2, update_field s o = Some o1 ∧ update_field s' o = Some o2
           ∧ ∀ q a (i : Z), get (arr q a o1) i = get (arr q a o2) i.
Proof.
  intros [Hs Ho] Hsame. pose proof Hsame as [Hs' _].
  assert (well_formed s' o) as Hwf'.
  { split; [by apply (inputs_ok_same s) |]. intros q a. rewrite Hs'. apply Ho. }
  do 2 eexists. split; [by apply update_field_eq |].
  split; [by apply update_field_eq |].
  intros q a i.
  assert (activated s' = activated s) as -> by (by rewrite Hs').
  destruct (activated s); [| done].
  assert (entered s' o = entered s o) as ->.
  { unfold entered, report. by rewrite Hs'. }
  assert (all_local s' = all_local s) as -> by (by rewrite Hs').
  generalize (entered s o). clear Ho.
  induction (all_local s) as [| lc lcs IH]; intros o0; [done |].
  simpl. rewrite (cell_result_same s s') by done. apply IH.
Qed.

Lemma filter_only {A} (P : A → Prop) `{∀ x, Decision (P x)} (l : list A) (i : A) :
  NoDup l → i ∈ l → (∀ j, j ∈ l → P j ↔ j = i) → filter P l = [i].
Proof.
  intros Hnd. induction Hnd as [| x l Hx Hnd IH]; intros Hin HP.
  - by apply elem_of_nil in Hin.
  - destruct (decide (P x)) as [HPx|HPx].
    + assert (x = i) as -> by (apply HP; [by left | done]).
      rewrite filter_cons_True by done. f_equal.
      destruct (filter P l) as [| y k] eqn:Hf; [done |].
      assert (y ∈ filter P l) as Hy by (rewrite Hf; by left).
      apply list_elem_of_filter in Hy as [HPy Hy].
      apply HP in HPy; [| by right]. by subst.
    + rewrite filter_cons_False by done.
      apply IH; [| intros j Hj; apply HP; by right].
      apply elem_of_cons in Hin as [->|]; [| done].
      exfalso. apply HPx. apply HP; [by left | done].
Qed.

Lemma sources_only s (i : Z) : only_occupied s i → sources s = [i].
Proof.
  intros [Hi Honly]. unfold sources. apply filter_only.
  - apply NoDup_seqZ.
  - apply elem_of_seqZ. lia.
  - intros j Hj. apply elem_of_seqZ in Hj. apply Honly. lia.
Qed.

(** Claim C2, as amended.  In a system whose only occupied cell is [i],
    owned at local index [lc], an activated [update_field] leaves

      Total Dipolar Field[i]       = (self_demag(V) * m^ + T(lc,i).m^) * unit_scale
      Demagnetizing Pseudo-Field[i] = (-0.5 * self_demag(V) * m^ + T(lc,i).m^) * unit_scale

    The loop over the sources visits [j = i] too, so the contraction of
    the coincident-pair tensor T(lc,i) with the cell's own normalised
    moment is added to both; no other cell contributes. *)
Theorem single_cell_field s o (lc i : Z) :
  well_formed s o → activated s = true → NoDup (local_cells s) →
  (0 ≤ lc < cells_num_local_cells s)%Z →
  get (cell_id_array s) lc = Some i → only_occupied s i →
  ∃ o', update_field s o = Some o'
    ∧ ∀ a,
        get (arr Total a o') i
        = Some (mul (add (mul (self_demag (cell (cells_volume_array s) i))
                              (normalise (cell (mag s a) i)))
                         (contraction s a lc i))
                    lit_scale)
      ∧ get (arr Demag a o') i
        = Some (mul (add (mul (mul (opp lit_0_5)
                                   (self_demag (cell (cells_volume_array s) i)))
                              (normalise (cell (mag s a) i)))
                         (contraction s a lc i))
                    lit_scale).
Proof.
  intros Hwf Hact Hnd Hlc Hget Honly.
  assert (occupied s i) as Hocc by (destruct Honly as [Hi Honly]; by apply Honly).
  destruct (update_field_defined s o Hwf) as [o' Hrun].
  exists o'. split; [done |]. intros a.
  pose proof (update_field_result s o o' lc i Total a Hwf Hact Hnd Hlc Hget Hocc Hrun)
    as Ht.
  pose proof (update_field_result s o o' lc i Demag a Hwf Hact Hnd Hlc Hget Hocc Hrun)
    as Hd.
  unfold field_value in Ht, Hd. by rewrite (sources_only s i) in Ht, Hd.
Qed.


Lemma cell_fmap (f : num → num) (v : list num) (j : Z) :
  (Z.to_nat j < length v)%nat → cell (f <$> v) j = f (cell v j).
Proof. intros Hj. unfold cell. by apply list_lookup_total_fmap. Qed.

End Facts.

(** *** In exact arithmetic *)

Section Exact.
#[local] Existing Instance exact.
Implicit Types (s : @inputs exact) (o : @outputs exact) (q : quantity) (a : axis).
Open Scope R_scope.

Lemma pair_sum_base s a (l : Z) js (b : R) :
  pair_sum s a l js b = b + pair_sum s a l js 0.
Proof.
  revert b. unfold pair_sum. induction js as [| j js IH]; intros b; simpl.
  - lra.
  - rewrite IH. rewrite (IH (0 + _)). lra.
Qed.

Lemma normalise_exact (m : R) : normalise m = m / 9.274009994e-24.
Proof. unfold normalise, imuB. simpl. unfold Rdiv. lra. Qed.

Lemma self_demag_exact (vol : R) : self_demag vol = 8 * PI / (3 * vol).
Proof. reflexivity. Qed.

(** The closed form of [field_value] in exact arithmetic: the formula of
    the specification. *)
Lemma field_value_exact s a (l i : Z) :
  let sd := 8 * PI / (3 * cell (cells_volume_array s) i) in
  let m := cell (mag s a) i / 9.274009994e-24 in
  let S := pair_sum s a l (sources s) 0 in
  field_value s Total a l i = 0.9274009994 * (sd * m + S)
  ∧ field_value s Demag a l i = 0.9274009994 * (-0.5 * sd * m + S).
Proof.
  intros sd m S. unfold field_value, self_term.
  rewrite normalise_exact, self_demag_exact. fold sd m.
  split; rewrite pair_sum_base; fold S; simpl; lra.
Qed.


(** Extra X2.  Over the reals, for every locally-owned occupied cell [i]
    (local index [lc]) an activated [update_field] leaves
    [0.9274009994 * (self_demag(V_i) * (m_i / muB) + S)] in the total
    field and [0.9274009994 * (-0.5 * self_demag(V_i) * (m_i / muB) + S)]
    in the pseudo-field, [S] being the sum of the contractions over the
    occupied cells. *)
Theorem update_field_formula_exact s o (lc i : Z) :
  well_formed s o → activated s = true → NoDup (local_cells s) →
  (0 ≤ lc < cells_num_local_cells s)%Z →
  get (cell_id_array s) lc = Some i → occupied s i →
  ∃ o', update_field s o = Some o'
    ∧ ∀ a,
        let sd := 8 * PI / (3 * cell (cells_volume_array s) i) in
        let m := cell (mag s a) i / 9.274009994e-24 in
        let S := pair_sum s a lc (sources s) 0 in
        get (arr Total a o') i = Some (0.9274009994 * (sd * m + S))
        ∧ get (arr Demag a o') i = Some (0.9274009994 * (-0.5 * sd * m + S)).
Proof.
  intros Hwf Hact Hnd Hlc Hget Hocc.
  destruct (update_field_defined s o Hwf) as [o' Hrun].
  exists o'. split; [done |]. intros a sd m S.
  destruct (field_value_exact s a lc i) as [Et Ed]. fold sd m S in Et, Ed.
  rewrite <- Et, <- Ed. split.
  - by apply (update_field_result s o o' lc i Total a).
  - by apply (update_field_result s o o' lc i Demag a).
Qed.

(** One occupied cell whose coincident-pair contraction vanishes: over
    the reals the total field is the self term alone,
    [self_demag(V) * (m / muB) * unit_scale], and the pseudo-field is -0.5
    times the total field. *)
Lemma single_cell_self_term_exact s o (lc i : Z) :
  well_formed s o → activated s = true → NoDup (local_cells s) →
  (0 ≤ lc < cells_num_local_cells s)%Z →
  get (cell_id_array s) lc = Some i → only_occupied s i →
  (∀ a, contraction s a lc i = 0) →
  ∃ o', update_field s o = Some o'
    ∧ ∀ a, ∃ t : R,
        get (arr Total a o') i = Some t ∧ get (arr Demag a o') i = Some (-0.5 * t)
        ∧ t = 8 * PI / (3 * cell (cells_volume_array s) i)
              * (cell (mag s a) i / 9.274009994e-24) * 0.9274009994.
Proof.
  intros Hwf Hact Hnd Hlc Hget Honly Hzero.
  assert (occupied s i) as Hocc by (destruct Honly as [Hi Honly]; by apply Honly).
  destruct (update_field_defined s o Hwf) as [o' Hrun].
  exists o'. split; [done |]. intros a.
  exists (field_value s Total a lc i).
  pose proof (update_field_result s o o' lc i Total a Hwf Hact Hnd Hlc Hget Hocc Hrun)
    as Ht.
  pose proof (update_field_result s o o' lc i Demag a Hwf Hact Hnd Hlc Hget Hocc Hrun)
    as Hd.
  destruct (field_value_exact s a lc i) as [Et Ed].
  assert (pair_sum s a lc (sources s) 0 = 0) as HS.
  { rewrite (sources_only s i) by done. unfold pair_sum. simpl.
    rewrite Hzero. lra. }
  rewrite HS in Et, Ed. split; [done |]. split.
  - rewrite Hd. f_equal. rewrite Et, Ed. lra.
  - rewrite Et. lra.
Qed.

(** Claim C6, as amended.  In exact real arithmetic, for every
    locally-owned occupied cell [i], the two outputs differ by the self
    term only: Total Dipolar Field[i] minus Demagnetizing Pseudo-Field[i]
    is [1.5 * 0.9274009994 * self_demag(V_i) * (m_i / muB)] in each
    component.  In double precision the two accumulate the same
    contractions onto different self terms and each sum rounds, so the
    identity can fail (a run on one cell, further down, shows it). *)
Theorem field_difference_exact s o (lc i : Z) :
  well_formed s o → activated s = true → NoDup (local_cells s) →
  (0 ≤ lc < cells_num_local_cells s)%Z →
  get (cell_id_array s) lc = Some i → occupied s i →
  ∃ o', update_field s o = Some o'
    ∧ ∀ a, ∃ t d : R,
        get (arr Total a o') i = Some t ∧ get (arr Demag a o') i = Some d
        ∧ t - d = 1.5 * 0.9274009994
                  * (8 * PI / (3 * cell (cells_volume_array s) i))
                  * (cell (mag s a) i / 9.274009994e-24).
Proof.
  intros Hwf Hact Hnd Hlc Hget Hocc.
  destruct (update_field_defined s o Hwf) as [o' Hrun].
  exists o'. split; [done |]. intros a.
  exists (field_value s Total a lc i), (field_value s Demag a lc i).
  split; [by apply (update_field_result s o o' lc i Total a) |].
  split; [by apply (update_field_result s o o' lc i Demag a) |].
  destruct (field_value_exact s a lc i) as [-> ->]. lra.
Qed.

Lemma well_formed_scale_moments (k : R) s o :
  well_formed s o → well_formed (scale_moments k s) o.
Proof.
  intros [(Hlen & Hids & Hn & Hv & Hmag & Hrows) Ho].
  split; [| done]. repeat split; try done; try apply Hrows.
  intros a. specialize (Hmag a). destruct a; simpl in *; by rewrite length_fmap.
Qed.

Lemma cell_scale_moments (k : R) s a (j : Z) :
  inputs_ok s → (0 ≤ j < cells_num_cells s)%Z →
  cell (mag (scale_moments k s) a) j = k * cell (mag s a) j.
Proof.
  intros Hs Hj. pose proof (inputs_ok_mag s a j Hs Hj) as Hlen.
  destruct a; exact (cell_fmap (H:=exact) (Rmult k) _ j Hlen).
Qed.

Lemma contraction_scale_moments (k : R) s a (l j : Z) :
  inputs_ok s → (0 ≤ j < cells_num_cells s)%Z →
  contraction (scale_moments k s) a l j = k * contraction s a l j.
Proof.
  intros Hs Hj.
  pose proof (cell_scale_moments k s ax_x j Hs Hj) as Hx.
  pose proof (cell_scale_moments k s ax_y j Hs Hj) as Hy.
  pose proof (cell_scale_moments k s ax_z j Hs Hj) as Hz.
  change (cell (mag_array_x (scale_moments k s)) j = k * cell (mag_array_x s) j) in Hx.
  change (cell (mag_array_y (scale_moments k s)) j = k * cell (mag_array_y s) j) in Hy.
  change (cell (mag_array_z (scale_moments k s)) j = k * cell (mag_array_z s) j) in Hz.
  unfold contraction. rewrite Hx, Hy, Hz.
  unfold normalise, dot3. destruct a; simpl; lra.
Qed.

Lemma pair_sum_scale_moments (k : R) s a (l : Z) js (b : R) :
  inputs_ok s → Forall (λ j, 0 ≤ j < cells_num_cells s)%Z js →
  pair_sum (scale_moments k s) a l js (k * b) = k * pair_sum s a l js b.
Proof.
  intros Hs Hjs. revert b. unfold pair_sum.
  induction Hjs as [| j js Hj Hjs IH]; intros b; [done |].
  simpl. rewrite contraction_scale_moments by done.
  rewrite <- IH. f_equal. lra.
Qed.

Lemma field_value_scale_moments (k : R) s q a (l i : Z) :
  inputs_ok s → (0 ≤ i < cells_num_cells s)%Z →
  field_value (scale_moments k s) q a l i = k * field_value s q a l i.
Proof.
  intros Hs Hi. unfold field_value.
  assert (self_term (scale_moments k s) q a i = k * self_term s q a i) as ->.
  { unfold self_term. rewrite cell_scale_moments by done.
    unfold normalise. destruct q; simpl; lra. }
  assert (sources (scale_moments k s) = sources s) as -> by done.
  rewrite pair_sum_scale_moments; [simpl; lra | done |].
  apply Forall_forall. intros j Hj. apply list_elem_of_filter in Hj as [_ Hj].
  apply elem_of_seqZ in Hj. lia.
Qed.

(** Claim C7, as amended.  In exact real arithmetic, multiplying every
    cell's moment vector by a constant [k] and running [update_field]
    again, from any output arrays of the right shape, multiplies by [k]
    each entry the function writes (both arrays, three components, every
    locally-owned occupied cell).  In double precision the products
    round, and the scaled run can differ from [k] times the first (a
    run on one cell, further down, shows it). *)
Theorem update_field_linear_exact (k : R) s o o2 (lc i : Z) :
  well_formed s o → well_formed s o2 → activated s = true →
  NoDup (local_cells s) → (0 ≤ lc < cells_num_local_cells s)%Z →
  get (cell_id_array s) lc = Some i → occupied s i →
  ∃ o' o2', update_field s o = Some o'
    ∧ update_field (scale_moments k s) o2 = Some o2'
    ∧ ∀ q a, ∃ x : R, get (arr q a o') i = Some x
                      ∧ get (arr q a o2') i = Some (k * x).
Proof.
  intros Hwf Hwf2 Hact Hnd Hlc Hget Hocc.
  pose proof (well_formed_scale_moments k s o2 Hwf2) as Hwfk.
  destruct (update_field_defined s o Hwf) as [o' Hrun].
  destruct (update_field_defined (H:=exact) (scale_moments (H:=exact) k s) o2 Hwfk) as [o2' Hrun2].
  exists o', o2'. split; [done |]. split; [done |]. intros q a.
  exists (field_value s q a lc i).
  split; [by apply (update_field_result s o o' lc i q a) |].
  destruct Hwf as [Hs _].
  destruct (local_cell_in_range s lc Hs Hlc) as [Hget' Hi].
  rewrite Hget in Hget'. injection Hget' as Hid.
  rewrite <- Hid in Hi.
  rewrite <- (field_value_scale_moments k s q a lc i) by done.
  by apply (update_field_result (H:=exact) (scale_moments (H:=exact) k s) o2 o2' lc i q a).
Qed.

End Exact.

(** *** On concrete systems *)

Set Warnings "-inexact-float".


Section Runs.

Ltac shape :=
  repeat match goal with
  | |- well_formed _ _ => split
  | |- inputs_ok _ => unfold inputs_ok; simpl
  | |- rows_ok _ _ _ => split; simpl
  | |- outputs_ok _ _ => intros [] []; simpl
  | |- _ ∧ _ => split
  | |- ∀ a : axis, _ => intros []; simpl
  | |- Forall _ _ => repeat constructor
  | |- _ => simpl; lia
  end.

Ltac occupancy := unfold occupied, cell; simpl; lia.

(** Two doubles with different bit patterns are different. *)
Lemma float_neq (x y : float) : Prim2SF x ≠ Prim2SF y → x ≠ y.
Proof. intros Hne ->. by apply Hne. Qed.


Lemma float_cell_ok m t : well_formed (float_cell m t) float_blank.
Proof. shape. Qed.

Lemma float_cell_only m t : only_occupied (float_cell m t) 0.
Proof.
  split; [simpl; lia |]. intros j Hj. simpl in Hj.
  assert (j = 0%Z) as -> by lia. split; [done | intros _; occupancy].
Qed.

Lemma float_pair_ok act : well_formed (float_pair act) float_pair_blank.
Proof. shape. Qed.

Lemma real_pair_ok : well_formed real_pair real_pair_blank.
Proof. shape. Qed.

Lemma some_float_neq (x y : float) : Prim2SF x ≠ Prim2SF y → Some x ≠ Some y.
Proof. intros Hne [= Heq]. by apply (float_neq x y). Qed.

Ltac differ :=
  match goal with
  | |- ?l ≠ ?r =>
      let l' := eval vm_compute in l in
      let r' := eval vm_compute in r in
      change (l' ≠ r')
  end;
  apply some_float_neq; vm_compute; discriminate.

(** Claim C2 as stated fails.  One occupied cell of volume 1000 whose
    moment is one Bohr magneton along x, coincident-pair coefficient
    [xx = 1]: the total field is 0.935..., not the self term 0.00776...
    ([self_demag(V) * m^ * unit_scale], nor that product with the raw
    moment), and the pseudo-field is 0.923..., not -0.5 times the total
    field. *)
Lemma single_cell_pair_term_counterexample :
  only_occupied (float_cell 9.274009994e-24 1) 0
  ∧ ∃ o', update_field (float_cell 9.274009994e-24 1) float_blank = Some o'
      ∧ get (arr Total ax_x o') 0 = Some 0.93517037584439155%float
      ∧ get (arr Demag ax_x o') 0 = Some 0.92351631117780408%float
      ∧ get (arr Total ax_x o') 0
        ≠ Some (PrimFloat.mul
                  (PrimFloat.mul (@self_demag binary64 1000%float)
                     (@normalise binary64 9.274009994e-24%float))
                  (@lit_scale binary64))
      ∧ get (arr Total ax_x o') 0
        ≠ Some (PrimFloat.mul
                  (PrimFloat.mul (@self_demag binary64 1000%float)
                     9.274009994e-24%float)
                  (@lit_scale binary64))
      ∧ get (arr Demag ax_x o') 0
        ≠ Some (PrimFloat.mul (-0.5) 0.93517037584439155%float).
Proof.
  split; [apply float_cell_only |].
  eexists. split; [vm_compute; reflexivity |].
  repeat split; try (vm_compute; reflexivity); differ.
Qed.

(** Claim C6 as stated fails in double precision.  One occupied cell,
    coincident-pair coefficient [xx = 1e20]: both self terms are absorbed
    when the contraction is added, the two outputs are the same double,
    and their difference is 0, not
    [1.5 * 0.9274009994 * self_demag(V) * m^ = 0.01165...]. *)
Lemma field_difference_counterexample :
  ∃ o' t d,
    update_field (float_cell 9.274009994e-24 1e20) float_blank = Some o'
    ∧ get (arr Total ax_x o') 0 = Some t
    ∧ get (arr Demag ax_x o') 0 = Some d
    ∧ t = 9.274009993999999e+19%float
    ∧ d = 9.274009993999999e+19%float
    ∧ PrimFloat.sub t d = 0%float
    ∧ PrimFloat.mul
        (PrimFloat.mul (PrimFloat.mul 1.5 (@lit_scale binary64))
           (@self_demag binary64 1000%float))
        (@normalise binary64 9.274009994e-24%float)
      = 0.011654064666587485%float
    ∧ Some (PrimFloat.sub t d)
      ≠ Some (PrimFloat.mul
                (PrimFloat.mul (PrimFloat.mul 1.5 (@lit_scale binary64))
                   (@self_demag binary64 1000%float))
                (@normalise binary64 9.274009994e-24%float)).
Proof.
  do 3 eexists. split; [vm_compute; reflexivity |].
  split; [vm_compute; reflexivity |]. split; [vm_compute; reflexivity |].
  repeat split; try (vm_compute; reflexivity); differ.
Qed.

(** Claim C7 as stated fails in double precision.  One occupied cell of
    volume 1000, moment 1e-23 along x, all tensor coefficients zero, and
    [k = 3]: the run on the scaled moments leaves 0.02513274122871834,
    three times the first run's output is 0.025132741228718336.  With
    moment 1e-20 and [k = 1e306] the normalised scaled moment overflows:
    the scaled run leaves a NaN, [k] times the first run's output is
    8.377580409572779e+306. *)
Lemma update_field_scaling_counterexample :
  (∃ o' o2' x y,
     update_field (float_cell 1e-23 0) float_blank = Some o'
     ∧ update_field (@scale_moments binary64 3%float (float_cell 1e-23 0))
         float_blank = Some o2'
     ∧ get (arr Total ax_x o') 0 = Some x
     ∧ get (arr Total ax_x o2') 0 = Some y
     ∧ x = 0.0083775804095727793%float
     ∧ y = 0.02513274122871834%float
     ∧ PrimFloat.mul 3 x = 0.025132741228718336%float
     ∧ Some y ≠ Some (PrimFloat.mul 3 x))
  ∧ ∃ o' o2' x y,
     update_field (float_cell 1e-20 0) float_blank = Some o'
     ∧ update_field (@scale_moments binary64 1e306%float (float_cell 1e-20 0))
         float_blank = Some o2'
     ∧ get (arr Total ax_x o') 0 = Some x
     ∧ get (arr Total ax_x o2') 0 = Some y
     ∧ PrimFloat.mul 1e306 x = 8.377580409572779e+306%float
     ∧ PrimFloat.is_nan y = true
     ∧ Some y ≠ Some (PrimFloat.mul 1e306 x).
Proof.
  split.
  - do 4 eexists. split; [vm_compute; reflexivity |].
    split; [vm_compute; reflexivity |].
    split; [vm_compute; reflexivity |]. split; [vm_compute; reflexivity |].
    repeat split; try (vm_compute; reflexivity); differ.
  - do 4 eexists. split; [vm_compute; reflexivity |].
    split; [vm_compute; reflexivity |].
    split; [vm_compute; reflexivity |]. split; [vm_compute; reflexivity |].
    repeat split; try (vm_compute; reflexivity); differ.
Qed.

Lemma float_pair_only : only_occupied (float_pair true) 1.
Proof.
  split; [simpl; lia |]. intros j Hj. simpl in Hj.
  assert (j = 0 ∨ j = 1)%Z as [-> | ->] by lia.
  - split; [occupancy | done].
  - split; [done | intros _; occupancy].
Qed.

Lemma float_pair_zeroed_same :
  same_up_to_empty_cells (float_pair true) float_pair_zeroed.
Proof.
  split; [reflexivity |]. intros a. split; [by destruct a |].
  intros j. unfold occupied, cell.
  destruct a; simpl; destruct (Z.to_nat j) as [| [| n]]; simpl; (lia || done).
Qed.

(** [update_field_formula] on two cells, the second one occupied and owned. *)
Lemma update_field_formula_witness :
  ∃ o', update_field (float_pair true) float_pair_blank = Some o'
    ∧ ∀ a, get (arr Total a o') 1
           = Some (field_value (float_pair true) Total a 0 1)
         ∧ get (arr Demag a o') 1
           = Some (field_value (float_pair true) Demag a 0 1).
Proof.
  apply (update_field_formula (float_pair true) float_pair_blank 0 1).
  - apply float_pair_ok.
  - reflexivity.
  - apply NoDup_singleton.
  - simpl; lia.
  - reflexivity.
  - occupancy.
Defined.

(** [single_cell_field] on the same system: cell 1 is its only occupied cell. *)
Lemma single_cell_field_witness :
  ∃ o', update_field (float_pair true) float_pair_blank = Some o'
    ∧ ∀ a, get (arr Total a o') 1
           = Some (PrimFloat.mul
                     (PrimFloat.add
                        (PrimFloat.mul (@self_demag binary64 1000%float)
                           (@normalise binary64 2e-23%float))
                        (contraction (float_pair true) a 0 1))
                     (@lit_scale binary64))
         ∧ get (arr Demag a o') 1
           = Some (PrimFloat.mul
                     (PrimFloat.add
                        (PrimFloat.mul
                           (PrimFloat.mul (-0.5) (@self_demag binary64 1000%float))
                           (@normalise binary64 2e-23%float))
                        (contraction (float_pair true) a 0 1))
                     (@lit_scale binary64)).
Proof.
  destruct (single_cell_field (float_pair true) float_pair_blank 0 1)
    as (o' & Hrun & Hval).
  - apply float_pair_ok.
  - reflexivity.
  - apply NoDup_singleton.
  - simpl; lia.
  - reflexivity.
  - apply float_pair_only.
  - exists o'. split; [exact Hrun |]. intros a. specialize (Hval a).
    destruct a; exact Hval.
Defined.

(** [update_field_inactive] on a deactivated system. *)
Lemma update_field_inactive_witness :
  update_field (float_pair false) float_pair_blank = Some float_pair_blank.
Proof. apply (update_field_inactive (float_pair false)). reflexivity. Defined.

(** [update_field_frame] at cell 0, which is empty and not owned: its
    slots keep the 7 they held. *)
Lemma update_field_frame_witness :
  ∃ o', update_field (float_pair true) float_pair_blank = Some o'
        ∧ ∀ q a, get (arr q a o') 0 = Some 7%float.
Proof.
  destruct (update_field_frame (float_pair true) float_pair_blank 0)
    as (o' & Hrun & Hval).
  - apply float_pair_ok.
  - left. occupancy.
  - exists o'. split; [exact Hrun |]. intros q a. rewrite Hval. by destruct q, a.
Defined.

(** [update_field_ignores_empty_cells]: zeroing the moment of the empty cell 0. *)
Lemma update_field_ignores_empty_cells_witness :
  ∃ o1 o2, update_field (float_pair true) float_pair_blank = Some o1
           ∧ update_field float_pair_zeroed float_pair_blank = Some o2
           ∧ ∀ q a (i : Z), get (arr q a o1) i = get (arr q a o2) i.
Proof.
  apply (update_field_ignores_empty_cells (float_pair true)).
  - apply float_pair_ok.
  - apply float_pair_zeroed_same.
Defined.

(** [update_field_diagnostic] on the two cells, [err::check] set. *)
Lemma update_field_diagnostic_witness :
  ∃ o', update_field (float_pair true) float_pair_blank = Some o'
        ∧ cerr o' = [terminaltextcolor RED; update_called 0;
                     terminaltextcolor WHITE].
Proof.
  apply (update_field_diagnostic (float_pair true) float_pair_blank).
  apply float_pair_ok.
Defined.

(** [update_field_formula_exact] on the two cells over the reals. *)
Lemma update_field_formula_exact_witness :
  ∃ o', update_field real_pair real_pair_blank = Some o'
    ∧ ∀ a,
        let sd := (8 * PI / (3 * 1000))%R in
        let m := (2 / 9.274009994e-24)%R in
        let S := pair_sum real_pair a 0 (sources real_pair) 0%R in
        get (arr Total a o') 1 = Some (0.9274009994 * (sd * m + S))%R
        ∧ get (arr Demag a o') 1 = Some (0.9274009994 * (-0.5 * sd * m + S))%R.
Proof.
  destruct (update_field_formula_exact real_pair real_pair_blank 0 1)
    as (o' & Hrun & Hval).
  - apply real_pair_ok.
  - reflexivity.
  - apply NoDup_singleton.
  - simpl; lia.
  - reflexivity.
  - occupancy.
  - exists o'. split; [exact Hrun |]. intros a. specialize (Hval a).
    destruct a; exact Hval.
Defined.

(** [field_difference_exact] on the two cells over the reals. *)
Lemma field_difference_exact_witness :
  ∃ o', update_field real_pair real_pair_blank = Some o'
    ∧ ∀ a, ∃ t d : R,
        get (arr Total a o') 1 = Some t ∧ get (arr Demag a o') 1 = Some d
        ∧ (t - d = 1.5 * 0.9274009994 * (8 * PI / (3 * 1000))
                   * (2 / 9.274009994e-24))%R.
Proof.
  destruct (field_difference_exact real_pair real_pair_blank 0 1)
    as (o' & Hrun & Hval).
  - apply real_pair_ok.
  - reflexivity.
  - apply NoDup_singleton.
  - simpl; lia.
  - reflexivity.
  - occupancy.
  - exists o'. split; [exact Hrun |]. intros a. specialize (Hval a).
    destruct a; exact Hval.
Defined.

(** [update_field_linear_exact] with [k = 3]. *)
Lemma update_field_linear_exact_witness :
  ∃ o' o2', update_field real_pair real_pair_blank = Some o'
    ∧ update_field (@scale_moments exact 3%R real_pair) real_pair_blank = Some o2'
    ∧ ∀ q a, ∃ x : R, get (arr q a o') 1 = Some x
                      ∧ get (arr q a o2') 1 = Some (3 * x)%R.
Proof.
  apply (update_field_linear_exact 3%R real_pair real_pair_blank real_pair_blank 0 1).
  - apply real_pair_ok.
  - apply real_pair_ok.
  - reflexivity.
  - apply NoDup_singleton.
  - simpl; lia.
  - reflexivity.
  - occupancy.
Defined.

End Runs.

Set Warnings "inexact-float".

End DipoleFacts.

(** ** Properties of vopencl::initialize *)

Module VOpenCLFacts.
Import VOpenCL.

Section Facts.
Context {mem : Type} (bld : build).
Context (initialize_atoms initialize_fields initialize_cells
  initialize_materials initialize_topology initialize_stats
  initialize_rng initialize_kernels : M mem bool).

Abbreviation initialize :=
  (initialize bld initialize_atoms initialize_fields initialize_cells
     initialize_materials initialize_topology initialize_stats
     initialize_rng initialize_kernels).
Abbreviation stage :=
  (stage initialize_atoms initialize_fields initialize_cells
     initialize_materials initialize_topology initialize_stats
     initialize_rng initialize_kernels).

Ltac run := unfold mbind, M_bind, bind, print, log, debug, set_use_cpu,
  set_default_device, set_context, set_queue, set_global, modify, read, when,
  mret, M_ret, ret, vexit; simpl.

Lemma count_devices_none (ps : list Platform) :
  Forall (λ p, getDevices p = []) ps → count_devices ps 0 = 0%Z.
Proof.
  unfold count_devices. induction 1 as [| p ps Hp Hps IH]; [done |].
  simpl. rewrite Hp. simpl. exact IH.
Qed.

(** Claim C8.  With OpenCL compiled in, when the runtime offers no
    platform, or no platform offers a device, [initialize] prints and logs
    its diagnostic (after the start-up message) and the process exits: the
    call does not return. *)
Theorem initialize_exits_without_devices (cpu_stats : bool) (w : world mem) :
  OPENCL bld = true →
  cl_platforms w = [] ∨ Forall (λ p, getDevices p = []) (cl_platforms w) →
  ∃ w', initialize cpu_stats w = Exited w'
    ∧ ∃ msg, (msg = no_platforms_message ∨ msg = no_devices_message)
        ∧ (cl_platforms w = [] → msg = no_platforms_message)
        ∧ cout w' = cout w ++ [enabled_message bld; msg]
        ∧ zlog w' = zlog w ++ [enabled_message bld; msg].
Proof.
  intros Hon Hnone.
  assert (Forall (λ p, getDevices p = []) (cl_platforms w)) as Hall.
  { destruct Hnone as [-> | H]; [constructor | done]. }
  unfold initialize. rewrite Hon. run.
  destruct (unsigned (Z.of_nat (length (cl_platforms w))) =? 0)%Z eqn:Hn.
  - simpl. eexists. split; [done |]. exists no_platforms_message. simpl.
    rewrite <- !app_assoc. auto.
  - simpl. rewrite count_devices_none by (by apply Forall_take). simpl.
    destruct (OPENCL_DEBUG bld); simpl.
    all: eexists; split; [done |]; exists no_devices_message; simpl.
    all: rewrite <- !app_assoc; repeat split; auto.
    all: intros Hnil; rewrite Hnil in Hn; done.
Qed.


(** The three ways a call with OpenCL compiled in can go, each with
    [use_cpu] already true. *)
Lemma initialize_paths (cpu_stats : bool) (w : world mem) :
  OPENCL bld = true →
  (∃ w', initialize cpu_stats w = Exited w' ∧ use_cpu w' = true)
  ∨ initialize cpu_stats w = Undefined
  ∨ (∃ w1, initialize cpu_stats w = stage w1 ∧ use_cpu w1 = true).
Proof.
  intros Hon. unfold initialize. rewrite Hon. run.
  destruct (unsigned (Z.of_nat (length (cl_platforms w))) =? 0)%Z; simpl;
    [left; eauto |].
  destruct (OPENCL_DEBUG bld); simpl.
  all: destruct (count_devices _ 0 =? 0)%Z; simpl; [left; eauto |].
  all: unfold index; destruct (cl_platforms w !! 0%nat) as [p|]; simpl; [| by auto].
  all: destruct ((getDevices <$> _) !! 0%nat) as [row|]; simpl; [| by auto].
  all: destruct (row !! 0%nat) as [d|]; simpl; [| by auto].
  all: right; right; eauto.
Qed.

(** Claim C9.  [initialize] does the same for both values of
    [cpu_stats]: the argument is never read.  With OpenCL compiled in,
    [use_cpu] is true on every path, at the exit and when the staging
    routines are entered; without it the call returns [false] at once. *)
Theorem initialize_ignores_cpu_stats (c1 c2 : bool) (w : world mem) :
  initialize c1 w = initialize c2 w
  ∧ if OPENCL bld
    then (∃ w', initialize c1 w = Exited w' ∧ use_cpu w' = true)
         ∨ initialize c1 w = Undefined
         ∨ (∃ w1, initialize c1 w = stage w1 ∧ use_cpu w1 = true)
    else initialize c1 w = Returned false w.
Proof.
  split; [reflexivity |].
  destruct (OPENCL bld) eqn:Hon; [by apply initialize_paths |].
  unfold initialize. by rewrite Hon.
Qed.

(** Claim C10.  Past the two checks (some platform, and a device count
    that is not zero), [initialize] takes [devices[0][0]] as the default
    device: the first device of the first platform when it has one, and a
    read outside the vector when it has none.  A first platform without
    devices followed by a platform with one is such an input. *)
Theorem default_device_is_first_of_first (cpu_stats : bool) (m0 : mem) :
  OPENCL bld = true →
  (∀ (w : world mem) p ps,
     cl_platforms w = p :: ps →
     let nplatforms := unsigned (Z.of_nat (length (cl_platforms w))) in
     nplatforms ≠ 0%Z →
     count_devices (take (Z.to_nat nplatforms) (cl_platforms w)) 0 ≠ 0%Z →
     match getDevices p with
     | d :: _ => ∃ w1, initialize cpu_stats w = stage w1
                       ∧ default_device w1 = Some d
     | [] => initialize cpu_stats w = Undefined
     end)
  ∧ ∃ (w : world mem) p q d,
      cl_platforms w = [p; q] ∧ getDevices p = [] ∧ getDevices q = [d]
      ∧ initialize cpu_stats w = Undefined.
Proof.
  intros Hon. split.
  - intros w p ps Hps nplatforms Hnp Hnd.
    unfold initialize. rewrite Hon. run. fold nplatforms.
    apply Z.eqb_neq in Hnp, Hnd. rewrite Hnp, Hnd. simpl.
    assert (∃ k, Z.to_nat nplatforms = S k) as [k Hk].
    { apply Z.eqb_neq in Hnp. exists (Nat.pred (Z.to_nat nplatforms)).
      unfold nplatforms, unsigned in *.
      pose proof (Z.mod_pos_bound (Z.of_nat (length (cl_platforms w))) (2 ^ 32)).
      lia. }
    rewrite Hk, Hps. simpl.
    destruct (OPENCL_DEBUG bld); simpl.
    all: destruct (getDevices p) as [| d ds]; simpl; [done |].
    all: eexists; split; [reflexivity | done].
  - set (p := {| CL_PLATFORM_NAME := "P0"; getDevices := [] |}).
    set (d := {| CL_DEVICE_NAME := "D"; CL_DEVICE_VERSION := "OpenCL 1.2" |}).
    set (q := {| CL_PLATFORM_NAME := "P1"; getDevices := [d] |}).
    exists {| cout := []; zlog := []; OCLLOG := []; cl_platforms := [p; q];
              gpu_num_threads := 0; use_cpu := false; default_device := None;
              context := None; queue := None; global := 0;
              device_memory := m0 |}, p, q, d.
    repeat split. unfold initialize. rewrite Hon. run.
    by destruct (OPENCL_DEBUG bld).
Qed.

End Facts.

(** [initialize_exits_without_devices] when the runtime offers no
    platform at all. *)
Lemma initialize_exits_without_devices_witness :
  ∃ w', initialize demo_build staged staged staged staged staged staged
          staged staged true (demo_world []) = Exited w'
    ∧ ∃ msg, (msg = no_platforms_message ∨ msg = no_devices_message)
        ∧ (cl_platforms (demo_world []) = [] → msg = no_platforms_message)
        ∧ cout w' = cout (demo_world []) ++ [enabled_message demo_build; msg]
        ∧ zlog w' = zlog (demo_world []) ++ [enabled_message demo_build; msg].
Proof.
  apply (initialize_exits_without_devices demo_build).
  - reflexivity.
  - left. reflexivity.
Defined.

(** [default_device_is_first_of_first] for a build with OpenCL compiled in. *)
Lemma default_device_is_first_of_first_witness :
  (∀ (w : world unit) p ps,
     cl_platforms w = p :: ps →
     let nplatforms := unsigned (Z.of_nat (length (cl_platforms w))) in
     nplatforms ≠ 0%Z →
     count_devices (take (Z.to_nat nplatforms) (cl_platforms w)) 0 ≠ 0%Z →
     match getDevices p with
     | d :: _ => ∃ w1, initialize demo_build staged staged staged staged staged
                         staged staged staged true w
                       = stage staged staged staged staged staged staged
                           staged staged w1
                       ∧ default_device w1 = Some d
     | [] => initialize demo_build staged staged staged staged staged staged
               staged staged true w = Undefined
     end)
  ∧ ∃ (w : world unit) p q d,
      cl_platforms w = [p; q] ∧ getDevices p = [] ∧ getDevices q = [d]
      ∧ initialize demo_build staged staged staged staged staged staged
          staged staged true w = Undefined.
Proof.
  apply (default_device_is_first_of_first demo_build staged staged staged
           staged staged staged staged staged true tt).
  reflexivity.
Defined.

End VOpenCLFacts.


(** ** More properties of update_field *)

Module DipoleMoreFacts.
Import Arith Dipole DipoleFacts DipoleMore.
Section Facts.
Context `{Scalar}.
Implicit Types (s : inputs) (o : outputs) (q : quantity) (a : axis).

(** A loop with a step that is undefined whatever the state is undefined. *)
Lemma run_loop_undefined (body : Z → outputs → option outputs) idx (lc : Z) o :
  lc ∈ idx → (∀ o, body lc o = None) → run_loop body idx o = None.
Proof.
  intros Hin Hnone. revert o. induction idx as [| k rest IH]; intros o.
  - by apply elem_of_nil in Hin.
  - simpl. destruct (body k o) as [o1|] eqn:Hk; [| done]. simpl.
    apply elem_of_cons in Hin as [-> | Hin]; [by rewrite Hnone in Hk | by apply IH].
Qed.

(** Extra X3.  The function checks no index.  When it is activated and
    some local index in range has no entry in [cell_id_array] (the local
    count exceeds the vector), or names a cell outside the occupancy
    array, the call reads outside a vector: undefined behaviour, whatever
    the rest of the state is. *)
Theorem update_field_undefined_outside s o (lc : Z) :
  activated s = true → (0 ≤ lc < cells_num_local_cells s)%Z →
  get (cell_id_array s) lc = None
  ∨ (∃ i, get (cell_id_array s) lc = Some i
          ∧ get (cells_num_atoms_in_cell s) i = None) →
  update_field s o = None.
Proof.
  intros Hact Hlc Hbad. unfold update_field. rewrite Hact. simpl.
  apply (run_loop_undefined _ _ lc); [apply elem_of_seqZ; lia |].
  intros o1. unfold cell_step.
  destruct Hbad as [-> | (i & -> & Hi)]; [done |]. simpl. by rewrite Hi.
Qed.

Lemma last_writer_cons s (lc : Z) lcs k :
  last_writer s (lc :: lcs) k
  = match last_writer s lcs k with
    | Some lc' => Some lc'
    | None => if decide (writes s k lc) then Some lc else None
    end.
Proof.
  unfold last_writer. rewrite filter_cons.
  destruct (decide (writes s k lc)); [| by destruct (last _)].
  rewrite last_cons. by destruct (last _).
Qed.

(** Slot by slot, what the outer loop leaves: the value of the last
    local index that writes the slot, or what was there. *)
Lemma outer_loop_slot s o lcs q a (k : nat) :
  arr q a (foldl (λ o lc, cell_result s lc o) o lcs) !! k
  = match last_writer s lcs k with
    | Some lc => (λ _, field_value s q a lc (cell (cell_id_array s) lc))
                 <$> arr q a o !! k
    | None => arr q a o !! k
    end.
Proof.
  revert o. induction lcs as [| lc lcs IH]; intros o; [done |].
  simpl. rewrite IH, last_writer_cons.
  assert (arr q a (cell_result s lc o) !! k
          = if decide (writes s k lc)
            then (λ _, field_value s q a lc (cell (cell_id_array s) lc))
                 <$> arr q a o !! k
            else arr q a o !! k) as ->.
  { unfold cell_result, writes. simpl.
    destruct (decide (occupied s (cell (cell_id_array s) lc))) as [Hocc|Hocc].
    - rewrite arr_at_cell.
      destruct (decide (Z.to_nat (cell (cell_id_array s) lc) = k)) as [<-|Hne].
      + rewrite decide_True by done. apply list_lookup_alter_eq.
      + rewrite decide_False by tauto. by apply list_lookup_alter_ne.
    - by rewrite decide_False by tauto. }
  destruct (last_writer s lcs k) as [lc'|]; [| by case_decide].
  case_decide; [| done]. by destruct (arr q a o !! k).
Qed.


Lemma outer_loop_shape s o lcs :
  outputs_ok s o → outputs_ok s (foldl (λ o lc, cell_result s lc o) o lcs).
Proof.
  revert o. induction lcs as [| lc lcs IH]; intros o Ho; [done |].
  simpl. apply IH. by apply outputs_ok_cell_result.
Qed.

(** The shapes are kept: after a run the next run is defined again. *)
Lemma update_field_keeps_shape s o o' :
  well_formed s o → update_field s o = Some o' → well_formed s o'.
Proof.
  intros Hwf Hrun. pose proof Hwf as [Hs Ho].
  rewrite update_field_eq in Hrun by done. injection Hrun as <-.
  split; [done |]. destruct (activated s); [| done].
  apply outer_loop_shape. by apply outputs_ok_entered.
Qed.

(** Extra X5.  Nothing is carried over from one evaluation to the next:
    a second run on the output of the first is defined and leaves both
    field arrays, all three components, exactly as the first left them.
    This holds in any arithmetic, and with repeated cells in the local
    list. *)
Theorem update_field_idempotent s o :
  well_formed s o →
  ∃ o1 o2, update_field s o = Some o1 ∧ update_field s o1 = Some o2
           ∧ ∀ q a, arr q a o2 = arr q a o1.
Proof.
  intros Hwf.
  destruct (update_field_defined s o Hwf) as [o1 Hrun1].
  pose proof (update_field_keeps_shape s o o1 Hwf Hrun1) as Hwf1.
  destruct (update_field_defined s o1 Hwf1) as [o2 Hrun2].
  exists o1, o2. split; [done |]. split; [done |]. intros q a.
  rewrite update_field_eq in Hrun1, Hrun2 by done.
  injection Hrun1 as <-. injection Hrun2 as <-.
  destruct (activated s); [| done].
  apply list_eq. intros k. rewrite !outer_loop_slot, !arr_entered, outer_loop_slot.
  rewrite arr_entered.
  destruct (last_writer s (all_local s) k); [| done].
  by destruct (arr q a o !! k).
Qed.

(** Extra X4.  A rank whose local cells are all without occupancy (in
    particular a rank with no local cell) gets both field arrays back
    whole, every slot as it was. *)
Theorem update_field_nothing_owned s o :
  well_formed s o → (∀ i, i ∈ local_cells s → ¬ occupied s i) →
  ∃ o', update_field s o = Some o' ∧ ∀ q a, arr q a o' = arr q a o.
Proof.
  intros Hwf Hnone. pose proof Hwf as [Hs Ho].
  eexists. split; [by apply update_field_eq |]. intros q a.
  destruct (activated s); [| done].
  apply list_eq. intros k. rewrite outer_loop_frame; [by rewrite arr_entered |].
  intros lc Hin Hocc _. apply elem_of_seqZ in Hin.
  apply (Hnone (cell (cell_id_array s) lc)); [| done].
  apply local_cell_elem; [done | lia].
Qed.

Lemma last_filter_Some {A} (P : A → Prop) `{∀ x, Decision (P x)} (l1 l2 : list A) x :
  P x → Forall (λ y, ¬ P y) l2 → last (filter P (l1 ++ x :: l2)) = Some x.
Proof.
  intros Hx Hl2. rewrite filter_app, filter_cons_True by done.
  assert (filter P l2 = []) as ->.
  { induction Hl2 as [| y l2 Hy Hl2 IH]; [done |]. by rewrite filter_cons_False. }
  apply last_snoc.
Qed.

Lemma seqZ_split (n lc : Z) :
  (0 ≤ lc < n)%Z → seqZ 0 n = seqZ 0 lc ++ lc :: seqZ (lc + 1) (n - lc - 1).
Proof.
  intros Hlc. replace n with (lc + (n - lc))%Z at 1 by lia.
  rewrite seqZ_app by lia. f_equal. simpl.
  rewrite (seqZ_cons lc) by lia.
  replace (Z.succ lc) with (lc + 1)%Z by lia.
  by replace (Z.pred (n - lc)) with (n - lc - 1)%Z by lia.
Qed.

(** Extra X6.  When a cell is listed at several local indices, its slot
    holds the value computed at the last of them, with that index's row
    of the tensor: for an occupied cell [i] at local index [lc] that no
    later local index names, the slot of [i] is [field_value] at [lc]. *)
Theorem update_field_last_index_wins s o (lc i : Z) :
  well_formed s o → activated s = true →
  (0 ≤ lc < cells_num_local_cells s)%Z →
  get (cell_id_array s) lc = Some i → occupied s i →
  (∀ lc', (lc < lc' < cells_num_local_cells s)%Z →
          get (cell_id_array s) lc' ≠ Some i) →
  ∃ o', update_field s o = Some o'
        ∧ ∀ q a, get (arr q a o') i = Some (field_value s q a lc i).
Proof.
  intros Hwf Hact Hlc Hget Hocc Hlast. pose proof Hwf as [Hs Ho].
  destruct (local_cell_in_range s lc Hs Hlc) as [Hget' Hi].
  rewrite Hget in Hget'. injection Hget' as Hid.
  eexists. split; [rewrite update_field_eq by done; by rewrite Hact |].
  intros q a. apply get_arr_Some; [lia |].
  rewrite outer_loop_slot, arr_entered.
  assert (last_writer s (all_local s) (Z.to_nat i) = Some lc) as ->.
  { unfold last_writer, all_local. rewrite (seqZ_split _ lc) by done.
    apply last_filter_Some.
    - split; by rewrite <- Hid.
    - apply Forall_forall. intros lc' Hin [Hocc' Heq].
      apply elem_of_seqZ in Hin.
      destruct (local_cell_in_range s lc' Hs) as [Hget'' Hi']; [lia |].
      apply (Hlast lc'); [lia |]. rewrite Hget''. f_equal. lia. }
  rewrite <- Hid.
  destruct (lookup_lt_is_Some_2 (arr q a o) (Z.to_nat i)) as [x ->]; [| done].
  specialize (Ho q a). lia.
Qed.


Lemma cell_zip_with (f : num → num → num) (v w : list num) (j : Z) :
  (Z.to_nat j < length v)%nat → (Z.to_nat j < length w)%nat →
  cell (zip_with f v w) j = f (cell v j) (cell w j).
Proof. intros Hv Hw. unfold cell. by apply lookup_total_zip_with. Qed.

End Facts.

Section Exact.
#[local] Existing Instance exact.
Implicit Types (s : @inputs exact) (o : @outputs exact) (q : quantity) (a : axis).
Open Scope R_scope.

Lemma inputs_ok_with_moments s (mx my mz : list R) :
  inputs_ok s →
  (Z.to_nat (cells_num_cells s) ≤ length mx)%nat →
  (Z.to_nat (cells_num_cells s) ≤ length my)%nat →
  (Z.to_nat (cells_num_cells s) ≤ length mz)%nat →
  inputs_ok (with_moments (H:=exact) s mx my mz).
Proof.
  intros (Hlen & Hids & Hn & Hv & Hmag & Hrows) Hx Hy Hz.
  repeat split; try done; try apply Hrows. by intros [].
Qed.

Lemma cell_add_moments s (mx my mz : list R) a (j : Z) :
  inputs_ok s → inputs_ok (with_moments (H:=exact) s mx my mz) →
  (0 ≤ j < cells_num_cells s)%Z →
  cell (mag (add_moments (H:=exact) s mx my mz) a) j
  = cell (mag s a) j + cell (mag (with_moments (H:=exact) s mx my mz) a) j.
Proof.
  intros Hs Hs2 Hj.
  pose proof (inputs_ok_mag s a j Hs Hj) as Hl1.
  pose proof (inputs_ok_mag (with_moments (H:=exact) s mx my mz) a j Hs2 Hj) as Hl2.
  destruct a; exact (cell_zip_with (H:=exact) Rplus _ _ j Hl1 Hl2).
Qed.

Lemma contraction_add_moments s (mx my mz : list R) a (l j : Z) :
  inputs_ok s → inputs_ok (with_moments (H:=exact) s mx my mz) →
  (0 ≤ j < cells_num_cells s)%Z →
  contraction (add_moments (H:=exact) s mx my mz) a l j
  = contraction s a l j + contraction (with_moments (H:=exact) s mx my mz) a l j.
Proof.
  intros Hs Hs2 Hj.
  pose proof (cell_add_moments s mx my mz ax_x j Hs Hs2 Hj) as Hx.
  pose proof (cell_add_moments s mx my mz ax_y j Hs Hs2 Hj) as Hy.
  pose proof (cell_add_moments s mx my mz ax_z j Hs Hs2 Hj) as Hz.
  change (cell (mag_array_x (add_moments (H:=exact) s mx my mz)) j
          = cell (mag_array_x s) j
            + cell (mag_array_x (with_moments (H:=exact) s mx my mz)) j) in Hx.
  change (cell (mag_array_y (add_moments (H:=exact) s mx my mz)) j
          = cell (mag_array_y s) j
            + cell (mag_array_y (with_moments (H:=exact) s mx my mz)) j) in Hy.
  change (cell (mag_array_z (add_moments (H:=exact) s mx my mz)) j
          = cell (mag_array_z s) j
            + cell (mag_array_z (with_moments (H:=exact) s mx my mz)) j) in Hz.
  unfold contraction. rewrite Hx, Hy, Hz.
  unfold normalise, dot3. destruct a; simpl; lra.
Qed.

Lemma pair_sum_add_moments s (mx my mz : list R) a (l : Z) js (b b2 : R) :
  inputs_ok s → inputs_ok (with_moments (H:=exact) s mx my mz) →
  Forall (λ j, 0 ≤ j < cells_num_cells s)%Z js →
  pair_sum (add_moments (H:=exact) s mx my mz) a l js (b + b2)
  = pair_sum s a l js b + pair_sum (with_moments (H:=exact) s mx my mz) a l js b2.
Proof.
  intros Hs Hs2 Hjs. revert b b2. unfold pair_sum.
  induction Hjs as [| j js Hj Hjs IH]; intros b b2; [done |].
  simpl. rewrite contraction_add_moments by done.
  rewrite <- IH. f_equal. lra.
Qed.

Lemma field_value_add_moments s (mx my mz : list R) q a (l i : Z) :
  inputs_ok s → inputs_ok (with_moments (H:=exact) s mx my mz) →
  (0 ≤ i < cells_num_cells s)%Z →
  field_value (add_moments (H:=exact) s mx my mz) q a l i
  = field_value s q a l i + field_value (with_moments (H:=exact) s mx my mz) q a l i.
Proof.
  intros Hs Hs2 Hi. unfold field_value.
  assert (self_term (add_moments (H:=exact) s mx my mz) q a i
          = self_term s q a i + self_term (with_moments (H:=exact) s mx my mz) q a i)
    as ->.
  { unfold self_term. rewrite cell_add_moments by done.
    unfold normalise. destruct q; simpl; lra. }
  assert (sources (add_moments (H:=exact) s mx my mz) = sources s) as -> by done.
  assert (sources (with_moments (H:=exact) s mx my mz) = sources s) as -> by done.
  rewrite pair_sum_add_moments; [simpl; lra | done | done |].
  apply Forall_forall. intros j Hj. apply list_elem_of_filter in Hj as [_ Hj].
  apply elem_of_seqZ in Hj. lia.
Qed.

(** Extra X7.  Superposition, over the reals: with the moments of two
    systems added cell by cell (same cells, volumes, occupancy and
    tensor), every entry [update_field] writes is the sum of the entries
    it writes for the two systems, in both field arrays. *)
Theorem update_field_superposition_exact s (mx my mz : list R) o1 o2 o3 (lc i : Z) :
  well_formed s o1 → outputs_ok s o2 → outputs_ok s o3 →
  (Z.to_nat (cells_num_cells s) ≤ length mx)%nat →
  (Z.to_nat (cells_num_cells s) ≤ length my)%nat →
  (Z.to_nat (cells_num_cells s) ≤ length mz)%nat →
  activated s = true → NoDup (local_cells s) →
  (0 ≤ lc < cells_num_local_cells s)%Z →
  get (cell_id_array s) lc = Some i → occupied s i →
  ∃ o1' o2' o3',
    update_field s o1 = Some o1'
    ∧ update_field (with_moments (H:=exact) s mx my mz) o2 = Some o2'
    ∧ update_field (add_moments (H:=exact) s mx my mz) o3 = Some o3'
    ∧ ∀ q a, ∃ x y : R,
        get (arr q a o1') i = Some x ∧ get (arr q a o2') i = Some y
        ∧ get (arr q a o3') i = Some (x + y).
Proof.
  intros Hwf Ho2 Ho3 Hx Hy Hz Hact Hnd Hlc Hget Hocc. pose proof Hwf as [Hs _].
  pose proof (inputs_ok_with_moments s mx my mz Hs Hx Hy Hz) as Hs2.
  assert (inputs_ok (add_moments (H:=exact) s mx my mz)) as Hs3.
  { destruct Hs as (Hlen & Hids & Hn & Hv & Hmag & Hrows).
    repeat split; try done; try apply Hrows.
    intros a. pose proof (Hmag a) as Hma.
    destruct a; simpl in *; rewrite length_zip_with; lia. }
  assert (well_formed (with_moments (H:=exact) s mx my mz) o2) as Hwf2 by done.
  assert (well_formed (add_moments (H:=exact) s mx my mz) o3) as Hwf3 by done.
  destruct (update_field_defined s o1 Hwf) as [o1' Hrun1].
  destruct (update_field_defined (H:=exact) _ o2 Hwf2) as [o2' Hrun2].
  destruct (update_field_defined (H:=exact) _ o3 Hwf3) as [o3' Hrun3].
  exists o1', o2', o3'. repeat (split; [done |]). intros q a.
  destruct (local_cell_in_range s lc Hs Hlc) as [Hget' Hi].
  rewrite Hget in Hget'. injection Hget' as Hid. rewrite <- Hid in Hi.
  exists (field_value s q a lc i),
    (field_value (with_moments (H:=exact) s mx my mz) q a lc i).
  split; [by apply (update_field_result s o1 o1' lc i q a) |].
  split; [by apply (update_field_result (H:=exact) _ o2 o2' lc i q a) |].
  rewrite <- (field_value_add_moments s mx my mz q a lc i) by done.
  by apply (update_field_result (H:=exact) _ o3 o3' lc i q a).
Qed.

End Exact.

(** *** On concrete systems *)

Ltac shape :=
  repeat match goal with
  | |- well_formed _ _ => split
  | |- inputs_ok _ => unfold inputs_ok; simpl
  | |- rows_ok _ _ _ => split; simpl
  | |- outputs_ok _ _ => intros [] []; simpl
  | |- _ ∧ _ => split
  | |- ∀ a : axis, _ => intros []; simpl
  | |- Forall _ _ => repeat constructor
  | |- _ => simpl; lia
  end.

Ltac occupancy := unfold occupied, cell; simpl; lia.

(** [update_field_undefined_outside]: the owned cell id 5 is outside the
    occupancy array. *)
Lemma update_field_undefined_outside_witness :
  update_field float_stray float_pair_blank = None.
Proof.
  apply (update_field_undefined_outside float_stray float_pair_blank 0).
  - reflexivity.
  - simpl; lia.
  - right. exists 5%Z. split; reflexivity.
Defined.

(** [update_field_nothing_owned]: the owned cell is empty. *)
Lemma update_field_nothing_owned_witness :
  ∃ o', update_field float_unowned float_pair_blank = Some o'
        ∧ ∀ q a, arr q a o' = arr q a float_pair_blank.
Proof.
  apply (update_field_nothing_owned float_unowned float_pair_blank).
  - shape.
  - intros i Hi. apply list_elem_of_singleton in Hi as ->. occupancy.
Defined.

(** [update_field_idempotent] on the two cells. *)
Lemma update_field_idempotent_witness :
  ∃ o1 o2, update_field (float_pair true) float_pair_blank = Some o1
           ∧ update_field (float_pair true) o1 = Some o2
           ∧ ∀ q a, arr q a o2 = arr q a o1.
Proof.
  apply (update_field_idempotent (float_pair true) float_pair_blank). shape.
Defined.

(** [update_field_last_index_wins]: cell 1 listed twice, the second
    listing (local index 1) decides. *)
Lemma update_field_last_index_wins_witness :
  ∃ o', update_field float_twice float_pair_blank = Some o'
        ∧ ∀ q a, get (arr q a o') 1 = Some (field_value float_twice q a 1 1).
Proof.
  apply (update_field_last_index_wins float_twice float_pair_blank 1 1).
  - shape.
  - reflexivity.
  - simpl; lia.
  - reflexivity.
  - occupancy.
  - simpl. intros lc' Hlc'. lia.
Defined.

(** [update_field_superposition_exact]: adding the moment (1, 1, 1) to
    both cells. *)
Lemma update_field_superposition_exact_witness :
  ∃ o1' o2' o3',
    update_field real_pair real_pair_blank = Some o1'
    ∧ update_field (@with_moments exact real_pair [1; 1] [1; 1] [1; 1])%R
        real_pair_blank = Some o2'
    ∧ update_field (@add_moments exact real_pair [1; 1] [1; 1] [1; 1])%R
        real_pair_blank = Some o3'
    ∧ ∀ q a, ∃ x y : R,
        get (arr q a o1') 1 = Some x ∧ get (arr q a o2') 1 = Some y
        ∧ get (arr q a o3') 1 = Some (x + y)%R.
Proof.
  apply (update_field_superposition_exact real_pair [1; 1]%R [1; 1]%R [1; 1]%R
           real_pair_blank real_pair_blank real_pair_blank 0 1).
  - shape.
  - shape.
  - shape.
  - simpl; lia.
  - simpl; lia.
  - simpl; lia.
  - reflexivity.
  - apply NoDup_singleton.
  - simpl; lia.
  - reflexivity.
  - occupancy.
Defined.

End DipoleMoreFacts.


(** ** More properties of vopencl::initialize *)

Module VOpenCLMoreFacts.
Import VOpenCL VOpenCLFacts VOpenCLMore.
Section Facts.
Context {mem : Type} (bld : build).
Context (initialize_atoms initialize_fields initialize_cells
  initialize_materials initialize_topology initialize_stats
  initialize_rng initialize_kernels : M mem bool).

Abbreviation initialize :=
  (initialize bld initialize_atoms initialize_fields initialize_cells
     initialize_materials initialize_topology initialize_stats
     initialize_rng initialize_kernels).
Abbreviation stage :=
  (stage initialize_atoms initialize_fields initialize_cells
     initialize_materials initialize_topology initialize_stats
     initialize_rng initialize_kernels).

Ltac run := unfold mbind, M_bind, bind, print, log, debug, set_use_cpu,
  set_default_device, set_context, set_queue, set_global, modify, read, when,
  mret, M_ret, ret, vexit; simpl.

Lemma unsigned_small (n : Z) : (0 ≤ n < 2 ^ 32)%Z → unsigned n = n.
Proof. intros Hn. unfold unsigned. by apply Z.mod_small. Qed.

Lemma count_devices_total (ps : list Platform) (n : Z) :
  (0 ≤ n)%Z → (n + Z.of_nat (total_devices ps) < 2 ^ 32)%Z →
  count_devices ps n = (n + Z.of_nat (total_devices ps))%Z.
Proof.
  revert n. induction ps as [| p ps IH]; intros n Hn Hlt.
  - unfold count_devices, total_devices. simpl. lia.
  - assert (total_devices (p :: ps)
            = (length (getDevices p) + total_devices ps)%nat) as Ht by done.
    rewrite Ht in *.
    change (count_devices (p :: ps) n)
      with (count_devices ps (unsigned (n + Z.of_nat (length (getDevices p))))).
    rewrite unsigned_small by lia. rewrite IH by lia. lia.
Qed.

(** Extra X8.  With OpenCL compiled in, a first platform that has a
    device, and fewer than 2^32 platforms and devices, the call passes
    both checks and enters the staging routines with: the first device of
    the first platform as default device, a context on that one device,
    the queue on it, the global work size [gpu::num_threads] or 4 when
    that is not positive, [use_cpu] true, and the start-up message as the
    only line printed and logged. *)
Theorem initialize_selects_and_stages (cpu_stats : bool) (w : world mem) p ps d ds :
  OPENCL bld = true →
  cl_platforms w = p :: ps → getDevices p = d :: ds →
  (Z.of_nat (length (p :: ps)) < 2 ^ 32)%Z →
  (Z.of_nat (total_devices (p :: ps)) < 2 ^ 32)%Z →
  ∃ w1, initialize cpu_stats w = stage w1
    ∧ default_device w1 = Some d ∧ context w1 = Some [d] ∧ queue w1 = Some d
    ∧ global w1 = (if (0 <? gpu_num_threads w)%Z then gpu_num_threads w else 4%Z)
    ∧ use_cpu w1 = true
    ∧ cout w1 = cout w ++ [enabled_message bld]
    ∧ zlog w1 = zlog w ++ [enabled_message bld]
    ∧ cl_platforms w1 = cl_platforms w
    ∧ gpu_num_threads w1 = gpu_num_threads w
    ∧ device_memory w1 = device_memory w.
Proof.
  intros Hon Hps Hd Hnp Hnd.
  unfold initialize. rewrite Hon. run. rewrite Hps.
  rewrite unsigned_small by lia.
  rewrite Nat2Z.id, firstn_all.
  assert (0 < Z.of_nat (total_devices (p :: ps)))%Z as Hpos.
  { unfold total_devices. simpl. rewrite Hd. simpl. lia. }
  rewrite count_devices_total by lia.
  replace (Z.of_nat (length (p :: ps)) =? 0)%Z with false by (simpl; lia).
  replace (0 + Z.of_nat (total_devices (p :: ps)) =? 0)%Z with false by lia.
  simpl. rewrite Hd. simpl.
  destruct (OPENCL_DEBUG bld); simpl; eexists; (split; [reflexivity |]); simpl;
    rewrite ?Hps; repeat split.
Qed.


Lemma stage_returns_true (w : world mem) :
  returns_true initialize_atoms → returns_true initialize_fields →
  returns_true initialize_cells → returns_true initialize_materials →
  returns_true initialize_topology → returns_true initialize_stats →
  returns_true initialize_rng → returns_true initialize_kernels →
  ∃ w', stage w = Returned true w'.
Proof.
  intros H1 H2 H3 H4 H5 H6 H7 H8. unfold VOpenCL.stage. run.
  destruct (H1 w) as [w1 ->]. destruct (H2 w1) as [w2 ->].
  destruct (H3 w2) as [w3 ->]. destruct (H4 w3) as [w4 ->].
  destruct (H5 w4) as [w5 ->]. destruct (H6 w5) as [w6 ->].
  destruct (H7 w6) as [w7 ->]. destruct (H8 w7) as [w8 ->].
  by exists w8.
Qed.

(** Extra X9.  When the staging routines come back with [true] (each of
    those in initialize.cpp ends in [return true]), a call that returns
    returns whether OpenCL is compiled in: [true] with it, [false]
    without. *)
Theorem initialize_returns_whether_compiled_in (cpu_stats : bool) (w w' : world mem) b :
  returns_true initialize_atoms → returns_true initialize_fields →
  returns_true initialize_cells → returns_true initialize_materials →
  returns_true initialize_topology → returns_true initialize_stats →
  returns_true initialize_rng → returns_true initialize_kernels →
  initialize cpu_stats w = Returned b w' → b = OPENCL bld.
Proof.
  intros H1 H2 H3 H4 H5 H6 H7 H8 Hrun.
  destruct (OPENCL bld) eqn:Hon.
  - destruct (initialize_paths bld initialize_atoms initialize_fields
                initialize_cells initialize_materials initialize_topology
                initialize_stats initialize_rng initialize_kernels cpu_stats w Hon)
      as [(w1 & Hex & _) | [Hub | (w1 & Hst & _)]]; try congruence.
    destruct (stage_returns_true w1 H1 H2 H3 H4 H5 H6 H7 H8) as [w2 Hw2].
    congruence.
  - unfold VOpenCL.initialize in Hrun. rewrite Hon in Hrun. simpl in Hrun.
    unfold mret, M_ret, ret in Hrun. congruence.
Qed.

(** Extra X10.  Up to the staging routines, and at both exits, the lines
    [initialize] has added to standard output are the lines it has added
    to the log, in the same order; without OpenCL it prints and logs
    nothing. *)
Theorem initialize_prints_what_it_logs (cpu_stats : bool) (w : world mem) :
  if OPENCL bld
  then (∃ w' lines, initialize cpu_stats w = Exited w'
          ∧ cout w' = cout w ++ lines ∧ zlog w' = zlog w ++ lines)
       ∨ initialize cpu_stats w = Undefined
       ∨ (∃ w1 lines, initialize cpu_stats w = stage w1
            ∧ cout w1 = cout w ++ lines ∧ zlog w1 = zlog w ++ lines)
  else initialize cpu_stats w = Returned false w.
Proof.
  destruct (OPENCL bld) eqn:Hon; unfold VOpenCL.initialize; rewrite Hon; [| done].
  run.
  destruct (unsigned (Z.of_nat (length (cl_platforms w))) =? 0)%Z; simpl.
  { left. do 2 eexists. split; [done |]. simpl. by rewrite <- !app_assoc. }
  destruct (OPENCL_DEBUG bld); simpl.
  all: destruct (count_devices _ 0 =? 0)%Z; simpl;
    [left; do 2 eexists; (split; [done |]); simpl; by rewrite <- !app_assoc |].
  all: unfold index; destruct (cl_platforms w !! 0%nat) as [p|]; simpl; [| by auto].
  all: destruct ((getDevices <$> _) !! 0%nat) as [row|]; simpl; [| by auto].
  all: destruct (row !! 0%nat) as [d|]; simpl; [| by auto].
  all: right; right; do 2 eexists; (split; [done |]); simpl; done.
Qed.

End Facts.

(** [initialize_selects_and_stages] on one platform with one device. *)
Lemma initialize_selects_and_stages_witness :
  ∃ w1, initialize demo_build staged staged staged staged staged staged
          staged staged true (demo_world [demo_platform])
        = stage staged staged staged staged staged staged staged staged w1
    ∧ default_device w1 = Some demo_device ∧ context w1 = Some [demo_device]
    ∧ queue w1 = Some demo_device
    ∧ global w1 = 4%Z
    ∧ use_cpu w1 = true
    ∧ cout w1 = [enabled_message demo_build]
    ∧ zlog w1 = [enabled_message demo_build]
    ∧ cl_platforms w1 = [demo_platform]
    ∧ gpu_num_threads w1 = 0%Z
    ∧ device_memory w1 = tt.
Proof.
  apply (initialize_selects_and_stages demo_build staged staged staged staged
           staged staged staged staged true (demo_world [demo_platform])
           demo_platform [] demo_device []).
  - reflexivity.
  - reflexivity.
  - reflexivity.
  - by vm_compute.
  - by vm_compute.
Defined.

Lemma staged_returns_true : returns_true staged.
Proof. intros w. by exists w. Qed.

(** [initialize_returns_whether_compiled_in] on the same run. *)
Lemma initialize_returns_whether_compiled_in_witness :
  true = OPENCL demo_build.
Proof.
  eapply (initialize_returns_whether_compiled_in demo_build staged staged staged
            staged staged staged staged staged true
            (demo_world [demo_platform]) _ true);
    try apply staged_returns_true.
  cbv. reflexivity.
Defined.

End VOpenCLMoreFacts.


(** ** Properties of rand64 and of the seeds *)

Module RngFacts.
Import Rng.
Section Facts.
Variable rand : nat → Z.
(** [std::rand()] returns an [int] between 0 and [RAND_MAX], and
    [RAND_MAX] is at most [INT_MAX]. *)
Hypothesis rand_range : ∀ k, (0 ≤ rand k ≤ INT_MAX)%Z.

Lemma lor_words (hi lo : Z) :
  (0 ≤ hi)%Z → (0 ≤ lo < 2 ^ 32)%Z →
  Z.lor (Z.shiftl hi 32) lo = (hi * 2 ^ 32 + lo)%Z.
Proof.
  intros Hhi Hlo. rewrite Z.shiftl_mul_pow2 by lia.
  assert (Z.land (hi * 2 ^ 32) lo = 0%Z) as Hdisjoint.
  { apply Z.bits_inj'. intros n Hn. rewrite Z.land_spec, Z.bits_0.
    destruct (Z.lt_ge_cases n 32) as [Hlt|Hge].
    - by rewrite Z.mul_pow2_bits_low by lia.
    - destruct (Z.eq_dec lo 0%Z) as [->|Hne];
        [by rewrite Z.bits_0, andb_false_r |].
      assert (Z.log2 lo < 32)%Z by (apply Z.log2_lt_pow2; lia).
      by rewrite (Z.bits_above_log2 lo n), andb_false_r by lia. }
  rewrite <- Z.lxor_lor by done. symmetry. by apply Z.add_nocarry_lxor.
Qed.

Lemma rand64_value (calls : nat) :
  (rand64 rand calls).1 = (rand calls * 2 ^ 32 + rand (S calls))%Z.
Proof.
  pose proof (rand_range calls) as H1. pose proof (rand_range (S calls)) as H2.
  unfold INT_MAX in *. unfold rand64, cl_ulong. simpl fst.
  rewrite (Z.mod_small (rand calls)), (Z.mod_small (rand (S calls))) by lia.
  rewrite (Z.mod_small (Z.shiftl _ _)) by (rewrite Z.shiftl_mul_pow2; lia).
  apply lor_words; lia.
Qed.


Lemma rand64_range (calls : nat) : (0 ≤ (rand64 rand calls).1 < 2 ^ 63)%Z.
Proof.
  pose proof (rand_range calls) as H1. pose proof (rand_range (S calls)) as H2.
  unfold INT_MAX in *. rewrite rand64_value. lia.
Qed.

Lemma rand64_zero (calls : nat) :
  (rand64 rand calls).1 = 0%Z ↔ rand calls = 0%Z ∧ rand (S calls) = 0%Z.
Proof.
  pose proof (rand_range calls) as H1. pose proof (rand_range (S calls)) as H2.
  unfold INT_MAX in *. rewrite rand64_value. lia.
Qed.

(** Extra X11.  [rand64] packs two draws: the first is the upper 32-bit
    word of the result, the second the lower one, and the result is zero
    exactly when both draws are. *)
Theorem rand64_words (calls : nat) :
  let v := (rand64 rand calls).1 in
  Z.shiftr v 32 = rand calls ∧ Z.land v (2 ^ 32 - 1) = rand (S calls)
  ∧ (v = 0%Z ↔ rand calls = 0%Z ∧ rand (S calls) = 0%Z).
Proof.
  pose proof (rand_range calls) as H1. pose proof (rand_range (S calls)) as H2.
  unfold INT_MAX in *. cbv zeta. rewrite rand64_value.
  split; [| split].
  - rewrite Z.shiftr_div_pow2 by lia.
    rewrite Z.div_add_l by lia. rewrite Z.div_small by lia. lia.
  - change (2 ^ 32 - 1)%Z with (Z.ones 32). rewrite Z.land_ones by lia.
    rewrite Z.add_comm, Z.mod_add by lia. apply Z.mod_small. lia.
  - lia.
Qed.

(** Extra X12.  Since [std::rand()] returns a non-negative [int], bits
    31 and 63 of every [rand64] value are clear: the value is below 2^63
    and carries at most 62 random bits. *)
Theorem rand64_leaves_two_bits_clear (calls : nat) :
  let v := (rand64 rand calls).1 in
  (0 ≤ v < 2 ^ 63)%Z ∧ Z.testbit v 31 = false ∧ Z.testbit v 63 = false.
Proof.
  pose proof (rand_range calls) as H1. pose proof (rand_range (S calls)) as H2.
  unfold INT_MAX in *. cbv zeta. rewrite rand64_value.
  split; [lia |]. split.
  - rewrite Z.testbit_eqb by lia.
    replace (rand calls * 2 ^ 32 + rand (S calls))%Z
      with (rand (S calls) + (rand calls * 2) * 2 ^ 31)%Z by lia.
    rewrite Z.div_add by lia. rewrite Z.div_small by lia.
    rewrite Z.add_0_l, Z.mod_mul by lia. done.
  - rewrite Z.testbit_eqb by lia. rewrite Z.div_small by lia. done.
Qed.

Lemma draw_S fuel calls :
  draw rand (S fuel) calls
  = if ((rand64 rand calls).1 =? 0)%Z then draw rand fuel (S (S calls))
    else Some ((rand64 rand calls).1, S (S calls)).
Proof. reflexivity. Qed.

(** The loop hands out no zero. *)
Lemma draw_nonzero fuel calls elem calls' :
  draw rand fuel calls = Some (elem, calls') → elem ≠ 0%Z.
Proof.
  revert calls. induction fuel as [| fuel IH]; intros calls; [done |].
  rewrite draw_S. destruct ((rand64 rand calls).1 =? 0)%Z eqn:Hz; [apply IH |].
  intros [= <- <-]. by apply Z.eqb_neq.
Qed.

Lemma draw_value fuel calls elem calls' :
  draw rand fuel calls = Some (elem, calls') →
  ∃ c, elem = (rand64 rand c).1.
Proof.
  revert calls. induction fuel as [| fuel IH]; intros calls; [done |].
  rewrite draw_S. destruct ((rand64 rand calls).1 =? 0)%Z eqn:Hz; [apply IH |].
  intros [= <- <-]. by exists calls.
Qed.

Lemma fill_seeds fuel n calls rs calls' :
  fill rand fuel n calls = Some (rs, calls') →
  length rs = n ∧ Forall (λ elem, (0 < elem < 2 ^ 63)%Z) rs.
Proof.
  revert calls rs calls'. induction n as [| n IH]; intros calls rs calls'; simpl.
  - intros [= <- <-]. by split.
  - destruct (draw rand fuel calls) as [[e c1]|] eqn:Hd; [| done]. simpl.
    destruct (fill rand fuel n c1) as [[rest c2]|] eqn:Hf; [| done]. simpl.
    intros [= <- <-]. destruct (IH _ _ _ Hf) as [Hlen Hall].
    split; [simpl; by rewrite Hlen |]. constructor; [| done].
    pose proof (draw_nonzero _ _ _ _ Hd) as Hne.
    destruct (draw_value _ _ _ _ Hd) as [c ->].
    pose proof (rand64_range c). lia.
Qed.

(** Extra X13.  The vector [rs] that [initialize_rng] hands to the
    device has three seeds per atom, and none of them is zero (xorshift
    must not be seeded with 0); each lies strictly between 0 and 2^63. *)
Theorem seeds_are_nonzero fuel (num_atoms : Z) rs :
  initialize_rng_seeds rand fuel num_atoms = Done rs →
  Z.of_nat (length rs) = (3 * num_atoms)%Z
  ∧ Forall (λ elem, (0 < elem < 2 ^ 63)%Z) rs.
Proof.
  unfold initialize_rng_seeds. case_decide as Hn; [| done].
  destruct (fill rand fuel _ 0) as [[rs' c]|] eqn:Hf; [| done].
  intros [= <-]. destruct (fill_seeds _ _ _ _ _ Hf) as [Hlen Hall].
  split; [lia | done].
Qed.


Lemma draw_more_fuel fuel fuel' calls r :
  draw rand fuel calls = Some r → fuel ≤ fuel' → draw rand fuel' calls = Some r.
Proof.
  revert fuel' calls. induction fuel as [| fuel IH]; intros fuel' calls; [done |].
  intros Hd Hle. destruct fuel' as [| fuel']; [lia |].
  rewrite draw_S in *. destruct ((rand64 rand calls).1 =? 0)%Z; [| done].
  apply IH; [done | lia].
Qed.

Lemma fill_more_fuel fuel fuel' n calls r :
  fill rand fuel n calls = Some r → fuel ≤ fuel' → fill rand fuel' n calls = Some r.
Proof.
  revert calls r. induction n as [| n IH]; intros calls r; [done |].
  cbn [fill]. intros Hf Hle.
  destruct (draw rand fuel calls) as [[e c1]|] eqn:Hd; [| done].
  rewrite (draw_more_fuel _ fuel' _ _ Hd Hle). simpl in *.
  destruct (fill rand fuel n c1) as [[rest c2]|] eqn:Hr; [| done].
  by rewrite (IH _ _ Hr Hle).
Qed.

Lemma draw_reaches (d calls : nat) :
  rand (calls + d) ≠ 0%Z → ∃ fuel r, draw rand fuel calls = Some r.
Proof.
  revert calls. induction (lt_wf d) as [d _ IH]. intros calls Hd.
  destruct (Z.eq_dec (rand64 rand calls).1 0%Z) as [Hz|Hnz].
  - apply rand64_zero in Hz as [Hz1 Hz2].
    destruct d as [| [| d]].
    + by rewrite Nat.add_0_r in Hd.
    + by rewrite Nat.add_1_r in Hd.
    + destruct (IH d ltac:(lia) (S (S calls))) as (fuel & r & Hr).
      { by replace (S (S calls) + d) with (calls + S (S d)) by lia. }
      exists (S fuel), r. rewrite draw_S.
      by replace ((rand64 rand calls).1 =? 0)%Z with true
        by (symmetry; apply Z.eqb_eq, rand64_zero; done).
  - exists 1, ((rand64 rand calls).1, S (S calls)). rewrite draw_S.
    by apply Z.eqb_neq in Hnz as ->.
Qed.

Lemma fill_reaches (n calls : nat) :
  (∀ c, ∃ c', c ≤ c' ∧ rand c' ≠ 0%Z) →
  ∃ fuel r, fill rand fuel n calls = Some r.
Proof.
  intros Hgo. revert calls. induction n as [| n IH]; intros calls.
  - by exists 0, ([], calls).
  - destruct (Hgo calls) as (c' & Hle & Hne).
    destruct (draw_reaches (c' - calls) calls) as (f1 & [e c1] & Hd).
    { by replace (calls + (c' - calls)) with c' by lia. }
    destruct (IH c1) as (f2 & [rest c2] & Hf).
    exists (f1 `max` f2), (e :: rest, c2). cbn [fill].
    rewrite (draw_more_fuel f1 _ _ _ Hd) by lia. simpl.
    by rewrite (fill_more_fuel f2 _ _ _ _ Hf) by lia.
Qed.

(** Extra X14.  When the generator keeps returning a non-zero value now
    and then, and three times the atom count is a valid [int], the
    do-while loops end: some number of rounds yields the seed vector, and
    more rounds yield the same one. *)
Theorem seeds_are_reached (num_atoms : Z) :
  (∀ c, ∃ c', c ≤ c' ∧ rand c' ≠ 0%Z) →
  (0 ≤ num_atoms * 3 ≤ INT_MAX)%Z →
  ∃ fuel rs, initialize_rng_seeds rand fuel num_atoms = Done rs
             ∧ ∀ fuel', fuel ≤ fuel' →
                 initialize_rng_seeds rand fuel' num_atoms = Done rs.
Proof.
  intros Hgo Hn.
  destruct (fill_reaches (Z.to_nat (num_atoms * 3)) 0 Hgo) as (fuel & [rs c] & Hf).
  exists fuel, rs. unfold initialize_rng_seeds.
  split; [by rewrite decide_True, Hf |]. intros fuel' Hle.
  by rewrite decide_True, (fill_more_fuel fuel fuel' _ _ _ Hf Hle).
Qed.

End Facts.

Lemma ones_range : ∀ k, (0 ≤ ones k ≤ INT_MAX)%Z.
Proof. intros k. unfold ones, INT_MAX. lia. Qed.

(** [rand64_words] for the generator that always returns 1. *)
Lemma rand64_words_witness :
  let v := (rand64 ones 0).1 in
  Z.shiftr v 32 = ones 0 ∧ Z.land v (2 ^ 32 - 1) = ones 1
  ∧ (v = 0%Z ↔ ones 0 = 0%Z ∧ ones 1 = 0%Z).
Proof. apply (rand64_words ones ones_range 0). Defined.

(** [rand64_leaves_two_bits_clear] for the same generator. *)
Lemma rand64_leaves_two_bits_clear_witness :
  let v := (rand64 ones 0).1 in
  (0 ≤ v < 2 ^ 63)%Z ∧ Z.testbit v 31 = false ∧ Z.testbit v 63 = false.
Proof. apply (rand64_leaves_two_bits_clear ones ones_range 0). Defined.

(** [seeds_are_nonzero] for one atom: three seeds, each 2^32 + 1. *)
Lemma seeds_are_nonzero_witness :
  Z.of_nat (length [4294967297; 4294967297; 4294967297]%Z) = (3 * 1)%Z
  ∧ Forall (λ elem, (0 < elem < 2 ^ 63)%Z) [4294967297; 4294967297; 4294967297]%Z.
Proof.
  apply (seeds_are_nonzero ones ones_range 1 1). reflexivity.
Defined.

(** [seeds_are_reached] for the same generator and two atoms. *)
Lemma seeds_are_reached_witness :
  ∃ fuel rs, initialize_rng_seeds ones fuel 2 = Done rs
             ∧ ∀ fuel', fuel ≤ fuel' → initialize_rng_seeds ones fuel' 2 = Done rs.
Proof.
  apply (seeds_are_reached ones ones_range 2).
  - intros c. exists c. split; [lia | unfold ones; lia].
  - unfold INT_MAX. lia.
Defined.

End RngFacts.


(** ** Properties of the limits array *)

Module TopologyFacts.
Import Dipole Topology.

Lemma fill_limits_app atoms1 atoms2 ends limits :
  fill_limits (atoms1 ++ atoms2) ends limits
  = fill_limits atoms1 ends limits ≫= fill_limits atoms2 ends.
Proof.
  revert limits. induction atoms1 as [| atom rest IH]; intros limits; [done |].
  simpl. destruct (get ends atom) as [e|]; [| done]. simpl.
  case_decide; [| done].
  destruct (set_at limits (atom + 1) (e + 1)) as [limits'|]; [| done]. simpl.
  apply IH.
Qed.

Lemma fill_limits_prefix (n m : nat) (ends : list Z) :
  m ≤ n → m ≤ length ends →
  Forall (λ e, e < INT_MAX)%Z (take m ends) →
  fill_limits (seqZ 0 (Z.of_nat m)) ends (replicate (S n) 0%Z)
  = Some (0%Z :: ((λ e, e + 1)%Z <$> take m ends) ++ replicate (n - m) 0%Z).
Proof.
  induction m as [| m IH]; intros Hmn Hlen Hall.
  - simpl. by rewrite Nat.sub_0_r.
  - destruct (lookup_lt_is_Some_2 ends m) as [e He]; [lia |].
    rewrite (take_S_r _ _ _ He) in *. apply Forall_app in Hall as [Hall He'].
    rewrite Forall_singleton in He'.
    rewrite seqZ_S, fill_limits_app, IH by (done || lia). simpl.
    rewrite !Z.add_0_l.
    unfold get. rewrite decide_True by lia. rewrite Nat2Z.id, He. simpl.
    rewrite decide_True by lia.
    unfold set_at. rewrite decide_True.
    2: { simpl. rewrite length_app, length_fmap, length_take, length_replicate. lia. }
    simpl. do 2 f_equal.
    replace (Z.to_nat (Z.of_nat m + 1)) with (S m) by lia. simpl. f_equal.
    rewrite insert_app_r_alt by (rewrite length_fmap, length_take; lia).
    rewrite length_fmap, length_take.
    replace (m - m `min` length ends) with 0 by lia.
    replace (n - m) with (S (n - S m)) by lia. simpl.
    by rewrite fmap_app, <- app_assoc.
Qed.

(** Extra X15.  With an end index for every atom, none of them
    [INT_MAX], [initialize_topology] builds [limits_h] with one entry
    more than there are atoms: 0 first, then each atom's end index plus
    one, in atom order (so atom [k]'s neighbours are bounded by entries
    [k] and [k+1]). *)
Theorem limits_h_closed_form (num_atoms : Z) (ends : list Z) :
  (0 ≤ num_atoms < INT_MAX)%Z →
  (num_atoms ≤ Z.of_nat (length ends))%Z →
  Forall (λ e, e < INT_MAX)%Z (take (Z.to_nat num_atoms) ends) →
  limits_h num_atoms ends
  = Some (0%Z :: ((λ e, e + 1)%Z <$> take (Z.to_nat num_atoms) ends)).
Proof.
  intros Hn Hlen Hall. unfold limits_h. rewrite decide_True by lia.
  replace (Z.to_nat (num_atoms + 1)) with (S (Z.to_nat num_atoms)) by lia.
  rewrite <- (Z2Nat.id num_atoms) at 1 by lia.
  rewrite (fill_limits_prefix (Z.to_nat num_atoms) (Z.to_nat num_atoms))
    by (done || lia).
  by rewrite Nat.sub_diag, app_nil_r.
Qed.

Lemma fill_limits_undefined atoms (atom : Z) ends limits :
  atom ∈ atoms → get ends atom = None → fill_limits atoms ends limits = None.
Proof.
  intros Hin Hnone. revert limits.
  induction atoms as [| a rest IH]; intros limits; [by apply elem_of_nil in Hin |].
  simpl. apply elem_of_cons in Hin as [<- | Hin]; [by rewrite Hnone |].
  destruct (get ends a) as [e|]; [| done]. simpl. case_decide; [| done].
  destruct (set_at limits (a + 1) (e + 1)); [| done]. simpl. by apply IH.
Qed.

(** Extra X16.  With fewer end indices than atoms the loop reads
    [neighbour_list_end_index] outside the vector: no check, undefined
    behaviour. *)
Theorem limits_h_undefined_when_short (num_atoms : Z) (ends : list Z) :
  (Z.of_nat (length ends) < num_atoms)%Z → limits_h num_atoms ends = None.
Proof.
  intros Hshort. unfold limits_h. case_decide; [| done].
  apply (fill_limits_undefined _ (Z.of_nat (length ends))).
  - apply elem_of_seqZ. lia.
  - unfold get. rewrite decide_True by lia. rewrite Nat2Z.id.
    by apply lookup_ge_None_2.
Qed.

(** [limits_h_closed_form] for three atoms with 2, 3 and 2 neighbours. *)
Lemma limits_h_closed_form_witness :
  limits_h 3 [1; 4; 6]%Z = Some [0; 2; 5; 7]%Z.
Proof.
  apply (limits_h_closed_form 3 [1; 4; 6]%Z).
  - unfold INT_MAX. lia.
  - simpl; lia.
  - unfold INT_MAX. repeat constructor.
Defined.

(** [limits_h_undefined_when_short]: three atoms, one end index. *)
Lemma limits_h_undefined_when_short_witness :
  limits_h 3 [1]%Z = None.
Proof. apply (limits_h_undefined_when_short 3 [1]%Z). simpl; lia. Defined.

End TopologyFacts.
